(** * Gallery manifest builder: image-size parsers and manifest assembly

    A shallow embedding of [zenryukyo/tools/build_gallery.py]:
    the binary dimension parsers of [read_image_size] (JPEG, PNG, WebP),
    the resolver [get_image_dimensions] with its optional Pillow
    collaborator, and the manifest loop [build_gallery_items] with
    [GalleryItem.to_dict].

    Conventions.
    - A file's content is a [list byte]; the file object [fp] is the list
      of bytes not yet read, so [fp.read(n)] splits it with [take]/[drop]
      and a relative [seek] drops bytes (seeking past the end leaves the
      empty stream, on which every later read returns [b'']).
    - Python integers are [Z]; [int.from_bytes] is written out.
    - A raised exception is the [Raise] case of [result].
    - A [while True] loop is the iteration of its body, which says
      [Break], [Return] or [Continue] with the stream left to read. *)

From Stdlib Require Import ZArith Strings.Byte String Ascii DecimalString.
From stdpp Require Import gmap strings list fin_maps sorting.
From Equations Require Import Equations.

Local Open Scope Z_scope.
Local Open Scope string_scope.
Local Open Scope list_scope.

(** ** Bytes and integers *)

#[global] Instance byte_eq_decision : EqDecision byte := byte_eq_dec.

Definition byte_val (b : byte) : Z := Z.of_N (Byte.to_N b).

(** [int.from_bytes(bs, 'big')]; the empty string decodes to 0. *)
Definition int_from_bytes_big (bs : list byte) : Z :=
  fold_left (fun acc b => acc * 256 + byte_val b) bs 0.

(** [int.from_bytes(bs, 'little')]. *)
Definition int_from_bytes_little (bs : list byte) : Z :=
  fold_right (fun b acc => byte_val b + 256 * acc) 0 bs.

(** The slice [data[lo:hi]] for [0 <= lo <= hi]: it is cut short, never an
    error, when [data] ends before [hi]. *)
Definition slice (data : list byte) (lo hi : nat) : list byte :=
  take (hi - lo) (drop lo data).

(** [data[i]] as an integer.  Every use in the source is guarded by a
    length test, so the default is never returned there. *)
Definition byte_at (data : list byte) (i : nat) : Z :=
  byte_val (nth i data x00).

Definition read_uint16_be (data : list byte) (offset : nat) : Z :=
  int_from_bytes_big (slice data offset (offset + 2)).

(** ** Exceptions and results *)

Inductive exn :=
| ValueError (msg : string)
| OSError.

Inductive result (A : Type) :=
| Ok (a : A)
| Raise (e : exn).
Arguments Ok {A} a.
Arguments Raise {A} e.

#[global] Instance result_ret : MRet result := @Ok.

#[global] Instance result_bind : MBind result := fun A B k r =>
  match r with
  | Ok a => k a
  | Raise e => Raise e
  end.

#[global] Instance result_fmap : FMap result := fun A B f r =>
  match r with
  | Ok a => Ok (f a)
  | Raise e => Raise e
  end.

(** ** The file object *)

Definition fp_read (n : nat) (fp : list byte) : list byte * list byte :=
  (take n fp, drop n fp).

(** [fp.seek(k, os.SEEK_CUR)] for [k >= 0]. *)
Definition fp_seek_cur (k : Z) (fp : list byte) : list byte :=
  drop (Z.to_nat k) fp.

(** ** [while True] loops over a stream *)

Inductive control (R : Type) :=
| Break
| Return (r : R)
| Continue (fp : list byte).
Arguments Break {R}.
Arguments Return {R} r.
Arguments Continue {R} fp.

Definition inspect {A : Type} (x : A) : { y : A | x = y } := exist _ x eq_refl.

Section Loop.
Context {R : Type} (body : list byte -> control R).
Hypothesis body_consumes :
  forall fp fp', body fp = Continue fp' -> (length fp' < length fp)%nat.

(** [None] when the loop is left by [break], [Some r] on [return r]. *)
Equations while_true (fp : list byte) : option R by wf (length fp) lt :=
  while_true fp with inspect (body fp) => {
    | exist _ Break _ := None;
    | exist _ (Return r) _ := Some r;
    | exist _ (Continue fp') H := while_true fp' }.

Lemma while_true_step fp :
  while_true fp =
  match body fp with
  | Break => None
  | Return r => Some r
  | Continue fp' => while_true fp'
  end.
Proof.
  funelim (while_true fp);
    match goal with E : body _ = _ |- _ => rewrite E end; reflexivity.
Qed.
End Loop.

(** ** JPEG *)

Definition JPEG_SOI : list byte := [xff; xd8].

Definition JPEG_START_OF_FRAME_MARKERS : list byte :=
  [xc0; xc1; xc2; xc3; xc5; xc6; xc7; xc9; xca; xcb; xcd; xce; xcf].

Definition PNG_SIGNATURE : list byte :=
  [x89; x50; x4e; x47; x0d; x0a; x1a; x0a].

(** [marker = fp.read(1)], then [while marker and marker[0] == 0xFF:
    marker = fp.read(1)]: the marker read (empty at end of file) and the
    stream after it. *)
Fixpoint read_marker (fp : list byte) : list byte * list byte :=
  match fp with
  | [] => ([], [])
  | b :: fp' => if bool_decide (b = xff) then read_marker fp' else ([b], fp')
  end.

(** The body of the marker loop of the JPEG branch. *)
Definition jpeg_body (fp : list byte) : control (Z * Z) :=
  let '(marker_prefix, fp) := fp_read 1 fp in
  match marker_prefix with
  | [] => Break
  | b :: _ =>
    if negb (bool_decide (b = xff)) then Continue fp else
    let '(marker, fp) := read_marker fp in
    match marker with
    | [] => Break
    | marker_value :: _ =>
      if bool_decide (marker_value ∈ JPEG_START_OF_FRAME_MARKERS) then
        let '(length_bytes, fp) := fp_read 2 fp in
        if negb (bool_decide (length length_bytes = 2%nat)) then Break else
        let length_ := int_from_bytes_big length_bytes in
        let '(_, fp) := fp_read 1 fp in
        let '(height_bytes, fp) := fp_read 2 fp in
        let height := int_from_bytes_big height_bytes in
        let '(width_bytes, fp) := fp_read 2 fp in
        let width := int_from_bytes_big width_bytes in
        Return (width, height)
      else
        let '(length_bytes, fp) := fp_read 2 fp in
        if negb (bool_decide (length length_bytes = 2%nat)) then Break else
        let length_ := int_from_bytes_big length_bytes in
        Continue (fp_seek_cur (Z.max (length_ - 2) 0) fp)
    end
  end.

Lemma read_marker_length fp :
  (length (read_marker fp).2 <= length fp)%nat.
Proof.
  induction fp as [|b fp IH]; simpl; [lia|].
  case_bool_decide; simpl; lia.
Qed.

Lemma jpeg_body_consumes fp fp' :
  jpeg_body fp = Continue fp' -> (length fp' < length fp)%nat.
Proof.
  destruct fp as [|b fp]; [discriminate|].
  unfold jpeg_body, fp_read; simpl. rewrite drop_0.
  case_bool_decide; simpl.
  - pose proof (read_marker_length fp) as Hm.
    destruct (read_marker fp) as [[|m ?] fp1]; [discriminate|].
    simpl in Hm.
    case_bool_decide; [case_bool_decide; discriminate|].
    case_bool_decide; simpl; [|discriminate].
    intros [= <-]. unfold fp_seek_cur. rewrite !length_drop. lia.
  - intros [= <-]. lia.
Qed.

Definition jpeg_size (data : list byte) : result (Z * Z) :=
  let '(soi, fp) := fp_read 2 data in
  if negb (bool_decide (soi = JPEG_SOI)) then
    Raise (ValueError "Not a JPEG file")
  else
    match while_true jpeg_body jpeg_body_consumes fp with
    | Some dims => Ok dims
    | None => Raise (ValueError "Could not determine JPEG dimensions")
    end.

(** ** PNG *)

Definition png_size (data : list byte) : result (Z * Z) :=
  let '(header, _) := fp_read 24 data in
  if negb (bool_decide (slice header 0 8 = PNG_SIGNATURE)) then
    Raise (ValueError "Not a PNG file")
  else
    let width := int_from_bytes_big (slice header 16 20) in
    let height := int_from_bytes_big (slice header 20 24) in
    Ok (width, height).

(** ** WebP *)

Definition RIFF : list byte := [x52; x49; x46; x46].
Definition WEBP : list byte := [x57; x45; x42; x50].
Definition VP8X : list byte := [x56; x50; x38; x58].
Definition VP8_ : list byte := [x56; x50; x38; x20].
Definition VP8L : list byte := [x56; x50; x38; x4c].

(** The body of the chunk loop of the WebP branch. *)
Definition webp_body (fp : list byte) : control (Z * Z) :=
  let '(chunk_header, fp) := fp_read 8 fp in
  if bool_decide (length chunk_header < 8)%nat then Break else
  let chunk_type := slice chunk_header 0 4 in
  let chunk_size := int_from_bytes_little (drop 4 chunk_header) in
  let '(chunk_data, fp) :=
    fp_read (Z.to_nat (chunk_size + chunk_size mod 2)) fp in
  if bool_decide (chunk_type = VP8X) && bool_decide (10 <= length chunk_data)%nat then
    let width := 1 + int_from_bytes_little (slice chunk_data 4 7) in
    let height := 1 + int_from_bytes_little (slice chunk_data 7 10) in
    Return (width, height)
  else if bool_decide (chunk_type = VP8_) && bool_decide (10 <= length chunk_data)%nat then
    let width := Z.lor (byte_at chunk_data 6) (Z.shiftl (byte_at chunk_data 7) 8) in
    let height := Z.lor (byte_at chunk_data 8) (Z.shiftl (byte_at chunk_data 9) 8) in
    Return (width, height)
  else if bool_decide (chunk_type = VP8L) && bool_decide (5 <= length chunk_data)%nat then
    let bits := int_from_bytes_little (slice chunk_data 0 4) in
    let width := Z.land bits 0x3FFF + 1 in
    let height := Z.land (Z.shiftr bits 14) 0x3FFF + 1 in
    Return (width, height)
  else Continue fp.

Lemma webp_body_consumes fp fp' :
  webp_body fp = Continue fp' -> (length fp' < length fp)%nat.
Proof.
  unfold webp_body, fp_read.
  case_bool_decide as Hlen; [discriminate|].
  rewrite length_take in Hlen.
  repeat (destruct (_ && _); [discriminate|]).
  intros [= <-]. rewrite !length_drop. lia.
Qed.

Definition webp_size (data : list byte) : result (Z * Z) :=
  let '(header, fp) := fp_read 12 data in
  if negb (bool_decide (slice header 0 4 = RIFF))
     || negb (bool_decide (slice header 8 12 = WEBP)) then
    Raise (ValueError "Not a WebP file")
  else
    match while_true webp_body webp_body_consumes fp with
    | Some dims => Ok dims
    | None => Raise (ValueError "Could not determine WebP dimensions")
    end.

(** ** Paths

    A path is the list of its components below a common anchor, so that
    [photos_dir / name] appends a component.  [parent] of the empty path
    is itself, as for [Path('.')] and [Path('/')]. *)

Abbreviation Path := (list string).

Definition path_name (p : Path) : string := List.last p "".

Definition path_parent (p : Path) : Path := removelast p.

(** [name.rfind('.')], [None] standing for -1. *)
Fixpoint rfind_dot (s : string) : option nat :=
  match s with
  | "" => None
  | String c s' =>
    match rfind_dot s' with
    | Some i => Some (S i)
    | None => if Ascii.eqb c "." then Some 0%nat else None
    end
  end.

(** pathlib's [suffix] and [stem]: the last dot splits the name unless it
    is its first or its last character. *)
Definition path_suffix (p : Path) : string :=
  let name := path_name p in
  match rfind_dot name with
  | Some i =>
    if bool_decide (0 < i < String.length name - 1)%nat
    then substring i (String.length name - i) name else ""
  | None => ""
  end.

Definition path_stem (p : Path) : string :=
  let name := path_name p in
  match rfind_dot name with
  | Some i =>
    if bool_decide (0 < i < String.length name - 1)%nat
    then substring 0 i name else name
  | None => name
  end.

Fixpoint string_map (f : ascii -> ascii) (s : string) : string :=
  match s with
  | "" => ""
  | String c s' => String (f c) (string_map f s')
  end.

(** [str.lower] on the ASCII letters.  Strings are UTF-8 bytes here; no
    character outside ASCII lower-cases to a letter of a supported
    extension, so the membership tests below are those of the source.
    The text of a lower-cased string is that of the source when the
    string is ASCII; other capitals are left as they are. *)
Definition lower_char (c : ascii) : ascii :=
  let n := nat_of_ascii c in
  if bool_decide (65 <= n <= 90)%nat then ascii_of_nat (n + 32) else c.

Definition lower (s : string) : string := string_map lower_char s.

(** [s.replace(a, b)] for single characters. *)
Definition replace_char (a b : ascii) (s : string) : string :=
  string_map (fun c => if Ascii.eqb c a then b else c) s.

Fixpoint strip_prefix (base p : Path) : option Path :=
  match base, p with
  | [], _ => Some p
  | b :: base', c :: p' => if bool_decide (b = c) then strip_prefix base' p' else None
  | _ :: _, [] => None
  end.

(** [p.relative_to(base)] raises [ValueError] unless [base] is a prefix. *)
Definition relative_to (p base : Path) : result Path :=
  match strip_prefix base p with
  | Some rel => Ok rel
  | None => Raise (ValueError "not in the subpath")
  end.

Fixpoint join_posix (p : Path) : string :=
  match p with
  | [] => ""
  | [c] => c
  | c :: p' => String.append c (String.append "/" (join_posix p'))
  end.

Definition as_posix (p : Path) : string :=
  match p with
  | [] => "."
  | _ => join_posix p
  end.

(** Comparison of paths, as [sorted] sees it for [PurePosixPath]:
    component lists compared lexicographically, components compared as
    strings (code point order, which the byte order of UTF-8 follows). *)
Fixpoint path_compare (p q : Path) : comparison :=
  match p, q with
  | [], [] => Eq
  | [], _ :: _ => Lt
  | _ :: _, [] => Gt
  | a :: p', b :: q' =>
    match String.compare a b with
    | Eq => path_compare p' q'
    | c => c
    end
  end.

Definition path_ltb (p q : Path) : bool :=
  match path_compare p q with Lt => true | _ => false end.

(** [p <= q], that is [not (q < p)]. *)
Definition path_le (p q : Path) : Prop := path_ltb q p = false.

(** [sorted]: a stable sort that only asks [<]; insertion from the right
    end keeps equal elements in their input order. *)
Fixpoint insert_sorted (x : Path) (l : list Path) : list Path :=
  match l with
  | [] => [x]
  | y :: l' => if path_ltb y x then y :: insert_sorted x l' else x :: y :: l'
  end.

Definition sorted (l : list Path) : list Path := foldr insert_sorted [] l.

(** ** The file system *)

Inductive node :=
| File (content : list byte)
| Dir.

Abbreviation FS := (gmap (list string) node).

Definition is_file (fs : FS) (p : Path) : bool :=
  match fs !! p with Some (File _) => true | _ => false end.

Definition path_exists (fs : FS) (p : Path) : bool :=
  match fs !! p with Some _ => true | None => false end.

(** [path.open('rb')] and reading: the content of a regular file.  A
    regular file that cannot be opened (no permission) is not part of
    this file system: nothing below is stated about it. *)
Definition open_rb (fs : FS) (p : Path) : result (list byte) :=
  match fs !! p with
  | Some (File content) => Ok content
  | _ => Raise OSError
  end.

(** [d.iterdir()]: the entries directly below [d], in no particular
    order. *)
Definition iterdir (fs : FS) (d : Path) : result (list Path) :=
  match fs !! d with
  | Some Dir =>
    Ok (filter (fun p => p ≠ [] ∧ path_parent p = d) (map_to_list fs).*1)
  | _ => Raise OSError
  end.

(** ** [read_image_size] *)

Definition SUPPORTED_EXTENSIONS : list string :=
  [".jpg"; ".jpeg"; ".png"; ".webp"].

Definition read_image_size (fs : FS) (path : Path) : result (Z * Z) :=
  let suffix := lower (path_suffix path) in
  if bool_decide (suffix ∈ [".jpg"; ".jpeg"]) then
    data ← open_rb fs path; jpeg_size data
  else if bool_decide (suffix = ".png") then
    data ← open_rb fs path; png_size data
  else if bool_decide (suffix = ".webp") then
    data ← open_rb fs path; webp_size data
  else Raise (ValueError (String.append "Unsupported format: " suffix)).

(** ** The optional collaborator (Pillow)

    [Image] is [None] when the import failed.  Otherwise it offers
    [Image.open(path)] with the size read off the opened image ([None]:
    any exception), and the body of the [try] of [generate_thumbnail],
    which either saves a thumbnail at the destination and reports its
    size, or fails, possibly leaving a file behind.  The directories that
    [destination.parent.mkdir] makes before the save are not recorded:
    the file system changes at the destination only. *)

Inductive thumb_outcome :=
| ThumbSaved (content : list byte) (dims : Z * Z)
| ThumbFailed (left_behind : option (list byte)).

Record Pillow := {
  pil_open_size : Path -> list byte -> option (Z * Z);
  pil_thumbnail : FS -> Path -> Path -> Z -> thumb_outcome;
}.

Definition pil_size (pil : Pillow) (fs : FS) (path : Path) : option (Z * Z) :=
  match fs !! path with
  | Some (File content) => pil_open_size pil path content
  | _ => None
  end.

Definition get_image_dimensions (Image : option Pillow) (fs : FS) (path : Path)
  : result (Z * Z) :=
  match Image with
  | Some pil =>
    match pil_size pil fs path with
    | Some dims => Ok dims
    | None => read_image_size fs path
    end
  | None => read_image_size fs path
  end.

Definition generate_thumbnail (Image : option Pillow) (fs : FS)
    (source destination : Path) (max_edge : Z) : option (Z * Z) * FS :=
  match Image with
  | None => (None, fs)
  | Some pil =>
    match pil_thumbnail pil fs source destination max_edge with
    | ThumbSaved content dims => (Some dims, <[destination := File content]> fs)
    | ThumbFailed (Some content) => (None, <[destination := File content]> fs)
    | ThumbFailed None => (None, fs)
    end
  end.

(** ** [GalleryItem] and its serialization *)

Record GalleryItem := {
  src : string;
  w : Z;
  h : Z;
  alt : string;
  thumb : option string;
  thumbWidth : option Z;
  thumbHeight : option Z;
  caption : option string;
}.

Inductive json :=
| JStr (s : string)
| JInt (n : Z).

(** Truthiness of an [Optional[str]] and of an [Optional[int]]. *)
Definition truthy_str (o : option string) : bool :=
  match o with
  | Some s => negb (bool_decide (s = ""))
  | None => false
  end.

Definition truthy_int (o : option Z) : bool :=
  match o with
  | Some n => negb (bool_decide (n = 0))
  | None => false
  end.

(** A dict keeps its keys in insertion order; every key below is set once. *)
Definition to_dict (self : GalleryItem) : list (string * json) :=
  let data :=
    [("src", JStr (src self)); ("w", JInt (w self)); ("h", JInt (h self));
     ("alt", JStr (alt self))] in
  let data :=
    if truthy_str (thumb self)
    then data ++ [("thumb", JStr (default "" (thumb self)))] else data in
  let data :=
    if truthy_int (thumbWidth self) && truthy_int (thumbHeight self)
    then data ++ [("thumbWidth", JInt (default 0 (thumbWidth self)));
                  ("thumbHeight", JInt (default 0 (thumbHeight self)))]
    else data in
  let data :=
    if truthy_str (caption self)
    then data ++ [("caption", JStr (default "" (caption self)))] else data in
  data.

(** [data.get(key)]. *)
Fixpoint dict_get (key : string) (data : list (string * json)) : option json :=
  match data with
  | [] => None
  | (k, v) :: data' => if bool_decide (k = key) then Some v else dict_get key data'
  end.

Definition describe_alt (path : Path) : string :=
  let stem := replace_char "-" " " (replace_char "_" " " (path_stem path)) in
  stem.

(** ** [build_gallery_items] *)

Section Build.
Variable Image : option Pillow.
Variables photos_dir thumbs_dir : Path.
Variable max_edge : Z.
Variable skip_thumbs : bool.

(** The thumbnail part of one iteration: the values of [thumb_rel],
    [thumb_width] and [thumb_height] before the item is constructed. *)
Definition resolve_thumbnail (fs : FS) (photo : Path)
  : result (option string * option Z * option Z) * FS :=
  let thumb_path := thumbs_dir ++ [path_name photo] in
  let '(r, fs) :=
    if bool_decide (Image ≠ None) && negb skip_thumbs then
      let '(thumb_dims, fs) := generate_thumbnail Image fs photo thumb_path max_edge in
      match thumb_dims with
      | Some (thumb_width, thumb_height) =>
        (rel ← relative_to thumb_path (path_parent photos_dir);
         Ok (Some (as_posix rel), Some thumb_width, Some thumb_height), fs)
      | None => (Ok (None, None, None), fs)
      end
    else (Ok (None, None, None), fs) in
  match r with
  | Raise e => (Raise e, fs)
  | Ok (thumb_rel, thumb_width, thumb_height) =>
    if bool_decide (thumb_rel = None) && path_exists fs thumb_path then
      match relative_to thumb_path (path_parent photos_dir) with
      | Raise e => (Raise e, fs)
      | Ok rel =>
        match get_image_dimensions Image fs thumb_path with
        | Ok (thumb_width, thumb_height) =>
          (Ok (Some (as_posix rel), Some thumb_width, Some thumb_height), fs)
        | Raise _ => (Ok (Some (as_posix rel), None, None), fs)
        end
      end
    else (Ok (thumb_rel, thumb_width, thumb_height), fs)
  end.

(** One iteration of the loop for a photo that passed the three
    [continue] tests. *)
Definition build_item (fs : FS) (photo : Path) : result GalleryItem * FS :=
  match get_image_dimensions Image fs photo with
  | Raise e => (Raise e, fs)
  | Ok (width, height) =>
    let alt_text := describe_alt photo in
    let caption := alt_text in
    let '(r, fs) := resolve_thumbnail fs photo in
    ('(thumb_rel, thumb_width, thumb_height) ← r;
     rel ← relative_to photo (path_parent photos_dir);
     Ok {| src := as_posix rel; w := width; h := height; alt := alt_text;
           thumb := thumb_rel; thumbWidth := thumb_width;
           thumbHeight := thumb_height; caption := Some caption |}, fs)
  end.

(** The three tests that skip an entry. *)
Definition is_candidate (fs : FS) (photo : Path) : bool :=
  negb (bool_decide (path_parent photo = thumbs_dir))
  && is_file fs photo
  && bool_decide (lower (path_suffix photo) ∈ SUPPORTED_EXTENSIONS).

Fixpoint build_loop (fs : FS) (photos : list Path) (items : list GalleryItem)
  : result (list GalleryItem) * FS :=
  match photos with
  | [] => (Ok items, fs)
  | photo :: photos' =>
    if bool_decide (path_parent photo = thumbs_dir) then build_loop fs photos' items
    else if negb (is_file fs photo) then build_loop fs photos' items
    else if negb (bool_decide (lower (path_suffix photo) ∈ SUPPORTED_EXTENSIONS))
    then build_loop fs photos' items
    else
      match build_item fs photo with
      | (Raise e, fs) => (Raise e, fs)
      | (Ok item, fs) => build_loop fs photos' (items ++ [item])
      end
  end.

Definition build_gallery_items (fs : FS) : result (list GalleryItem) * FS :=
  match iterdir fs photos_dir with
  | Raise e => (Raise e, fs)
  | Ok entries => build_loop fs (sorted entries) []
  end.
End Build.

(** [write_gallery_json] serializes [item.to_dict()] for every item. *)
Definition manifest (items : list GalleryItem) : list (list (string * json)) :=
  to_dict <$> items.

(** * Sample files *)

(** The first 29 bytes of a 100x50 PNG: signature, IHDR length and type,
    width, height, and the five remaining IHDR bytes. *)
Definition png_100x50 : list byte :=
  PNG_SIGNATURE ++
  [x00; x00; x00; x0d; x49; x48; x44; x52;
   x00; x00; x00; x64; x00; x00; x00; x32; x08; x02; x00; x00; x00].

(** The same file cut after 20 bytes: the width is there, the height is not. *)
Definition png_cut_20 : list byte := take 20 png_100x50.

(** SOI, a 4-byte APP0 segment, then SOF0 with height 100 and width 200. *)
Definition jpg_200x100 : list byte :=
  [xff; xd8; xff; xe0; x00; x04; x01; x02;
   xff; xc0; x00; x11; x08; x00; x64; x00; xc8; x03].

(** SOI, then SOF0 with its length, the precision byte, the height 100
    and one byte of the width: the stream ends in the middle of the
    width. *)
Definition jpg_cut_in_width : list byte :=
  [xff; xd8; xff; xc0; x00; x11; x08; x00; x64; x01].

(** SOI, then SOF0 with its length, the precision byte and one byte, 100,
    of the height: the stream ends in the middle of the height and has
    nothing of the width. *)
Definition jpg_cut_in_height : list byte :=
  [xff; xd8; xff; xc0; x00; x11; x08; x64].

(** A lossy WebP whose key-frame header stores width 100 with scale bits
    01 (bytes 64 40) and height 50 with scale bits 10 (bytes 32 80). *)
Definition webp_vp8_scaled : list byte :=
  RIFF ++ [x16; x00; x00; x00] ++ WEBP ++ VP8_ ++ [x0a; x00; x00; x00] ++
  [x00; x00; x00; x9d; x01; x2a; x64; x40; x32; x80].

(** An extended WebP whose only chunk declares 1000 bytes of payload but
    is followed by 10 bytes (canvas 200x100). *)
Definition webp_vp8x_overrun : list byte :=
  RIFF ++ [x00; x00; x00; x00] ++ WEBP ++ VP8X ++ [xe8; x03; x00; x00] ++
  [x00; x00; x00; x00; xc7; x00; x00; x63; x00; x00].

(** A WebP whose only chunk, of an unknown type, declares 1000 bytes of
    payload but is followed by 3 bytes. *)
Definition webp_exif_overrun : list byte :=
  RIFF ++ [x00; x00; x00; x00] ++ WEBP ++ [x45; x58; x49; x46] ++
  [xe8; x03; x00; x00] ++ [x01; x02; x03].

(** A well-formed WebP container with no chunk at all. *)
Definition webp_no_chunk : list byte := RIFF ++ [x04; x00; x00; x00] ++ WEBP.

Definition site_photos : Path := ["site"; "photos"].
Definition site_thumbs : Path := ["site"; "photos"; "thumbs"].

Definition empty_site : FS :=
  <[site_thumbs := Dir]> (<[site_photos := Dir]> ∅).

(** One file below [photos/]. *)
Definition one_photo (name : string) (content : list byte) : FS :=
  <[site_photos ++ [name] := File content]> empty_site.

(** A PNG header whose IHDR stores a width of 0. *)
Definition png_0x50 : list byte :=
  PNG_SIGNATURE ++
  [x00; x00; x00; x0d; x49; x48; x44; x52;
   x00; x00; x00; x00; x00; x00; x00; x32; x08; x02; x00; x00; x00].

(** [photos/] with [b.png] (100x50) and [a.jpg] (200x100). *)
Definition two_photos : FS :=
  <[site_photos ++ ["a.jpg"] := File jpg_200x100]>
    (<[site_photos ++ ["b.png"] := File png_100x50]> empty_site).

(** The same, with a thumbnail of [b.png] left by an earlier run. *)
Definition kept_thumb : FS :=
  <[site_thumbs ++ ["b.png"] := File png_100x50]> two_photos.

(** The same, where the thumbnail left for [b.png] is not an image, and
    with a third photo whose header stores a width of 0. *)
Definition stale_thumb : FS :=
  <[site_photos ++ ["z.png"] := File png_0x50]>
    (<[site_thumbs ++ ["b.png"] := File [x00]]> two_photos).

(** [photos/] with [a.jpg], [b.png] and an [a.png] that is not a PNG. *)
Definition broken_first : FS :=
  <[site_photos ++ ["a.png"] := File [x00]]> two_photos.

(** * Properties *)

(** ** Bytes *)

Lemma byte_val_range b : 0 <= byte_val b < 256.
Proof.
  unfold byte_val. pose proof (Byte.to_N_bounded b). lia.
Qed.

Lemma int_from_bytes_big_snoc bs b :
  int_from_bytes_big (bs ++ [b]) = int_from_bytes_big bs * 256 + byte_val b.
Proof. unfold int_from_bytes_big. rewrite fold_left_app. reflexivity. Qed.

Lemma int_from_bytes_big_nonneg bs : 0 <= int_from_bytes_big bs.
Proof.
  induction bs as [|b bs IH] using rev_ind; [reflexivity|].
  rewrite int_from_bytes_big_snoc. pose proof (byte_val_range b). lia.
Qed.

Lemma int_from_bytes_little_nonneg bs : 0 <= int_from_bytes_little bs.
Proof.
  induction bs as [|b bs IH]; simpl; [lia|].
  pose proof (byte_val_range b). lia.
Qed.

Lemma int_from_bytes_big_2 a b :
  int_from_bytes_big [a; b] = 256 * byte_val a + byte_val b.
Proof. unfold int_from_bytes_big. simpl. lia. Qed.

Lemma byte_at_nonneg data i : 0 <= byte_at data i.
Proof. unfold byte_at. apply byte_val_range. Qed.

(** ** Loops *)

(** [loop_reaches body fp fp']: started on [fp], the loop comes to the
    head of an iteration with [fp'] left to read. *)
Inductive loop_reaches {R : Type} (body : list byte -> control R)
  : list byte -> list byte -> Prop :=
| reaches_here fp : loop_reaches body fp fp
| reaches_step fp fp1 fp2 :
    body fp = Continue fp1 -> loop_reaches body fp1 fp2 ->
    loop_reaches body fp fp2.

Section LoopFacts.
Context {R : Type} (body : list byte -> control R).
Hypothesis body_consumes :
  forall fp fp', body fp = Continue fp' -> (length fp' < length fp)%nat.

Lemma while_true_reaches fp fp' :
  loop_reaches body fp fp' ->
  while_true body body_consumes fp = while_true body body_consumes fp'.
Proof.
  induction 1 as [|fp fp1 fp2 Hstep _ IH]; [reflexivity|].
  rewrite while_true_step, Hstep. exact IH.
Qed.

Lemma while_true_Some fp r :
  while_true body body_consumes fp = Some r ->
  exists fp', loop_reaches body fp fp' /\ body fp' = Return r.
Proof.
  remember (length fp) as n eqn:Hn. revert fp Hn.
  induction n as [n IH] using lt_wf_ind. intros fp -> Hw.
  rewrite while_true_step in Hw.
  destruct (body fp) as [|r'|fp1] eqn:Hb; [discriminate| |].
  - injection Hw as ->. exists fp. split; [constructor|exact Hb].
  - destruct (IH (length fp1) (body_consumes _ _ Hb) fp1 eq_refl Hw)
      as (fp' & Hreach & Hret).
    exists fp'. split; [|exact Hret]. econstructor; eassumption.
Qed.

Lemma while_true_None fp :
  while_true body body_consumes fp = None ->
  exists fp', loop_reaches body fp fp' /\ body fp' = Break.
Proof.
  remember (length fp) as n eqn:Hn. revert fp Hn.
  induction n as [n IH] using lt_wf_ind. intros fp -> Hw.
  rewrite while_true_step in Hw.
  destruct (body fp) as [|r'|fp1] eqn:Hb; [|discriminate|].
  - exists fp. split; [constructor|exact Hb].
  - destruct (IH (length fp1) (body_consumes _ _ Hb) fp1 eq_refl Hw)
      as (fp' & Hreach & Hret).
    exists fp'. split; [|exact Hret]. econstructor; eassumption.
Qed.
End LoopFacts.

(** ** The branches of [read_image_size] *)

Lemma read_image_size_jpeg fs path data :
  lower (path_suffix path) ∈ [".jpg"; ".jpeg"] ->
  fs !! path = Some (File data) ->
  read_image_size fs path = jpeg_size data.
Proof.
  intros Hs Hf. unfold read_image_size, open_rb.
  rewrite bool_decide_eq_true_2 by exact Hs. rewrite Hf. reflexivity.
Qed.

Lemma read_image_size_png fs path data :
  lower (path_suffix path) = ".png" ->
  fs !! path = Some (File data) ->
  read_image_size fs path = png_size data.
Proof.
  intros Hs Hf. unfold read_image_size, open_rb.
  rewrite Hs, Hf. reflexivity.
Qed.

Lemma read_image_size_webp fs path data :
  lower (path_suffix path) = ".webp" ->
  fs !! path = Some (File data) ->
  read_image_size fs path = webp_size data.
Proof.
  intros Hs Hf. unfold read_image_size, open_rb.
  rewrite Hs, Hf. reflexivity.
Qed.

(** ** JPEG: the start-of-frame segment *)

Lemma sof_marker_not_ff m : m ∈ JPEG_START_OF_FRAME_MARKERS -> m ≠ xff.
Proof.
  unfold JPEG_START_OF_FRAME_MARKERS. rewrite !elem_of_cons, elem_of_nil.
  intros H ->. repeat (destruct H as [H|H]; [discriminate|]). exact H.
Qed.

Lemma read_marker_padding ffs m fp :
  Forall (eq xff) ffs -> m ≠ xff ->
  read_marker (ffs ++ m :: fp) = ([m], fp).
Proof.
  intros Hff Hm. induction Hff as [|b ffs <- _ IH]; simpl.
  - rewrite bool_decide_eq_false_2 by exact Hm. reflexivity.
  - exact IH.
Qed.

(** At a start-of-frame marker whose two length bytes are there, the
    body returns, whatever follows: height from the two bytes after the
    precision byte, width from the next two, each cut short by the end of
    the file. *)
Lemma jpeg_body_sof ffs m l1 l2 tail :
  Forall (eq xff) ffs -> m ∈ JPEG_START_OF_FRAME_MARKERS ->
  jpeg_body (xff :: ffs ++ m :: l1 :: l2 :: tail) =
  Return (int_from_bytes_big (slice tail 3 5), int_from_bytes_big (slice tail 1 3)).
Proof.
  intros Hff Hm. unfold jpeg_body, fp_read. simpl. rewrite drop_0.
  rewrite (read_marker_padding _ _ _ Hff (sof_marker_not_ff _ Hm)).
  rewrite bool_decide_eq_true_2 by exact Hm. simpl.
  unfold slice. rewrite !drop_drop. reflexivity.
Qed.

(** A segment that is not a start of frame is skipped by its length. *)
Lemma jpeg_body_skip ffs m l1 l2 tail :
  Forall (eq xff) ffs -> m ∉ JPEG_START_OF_FRAME_MARKERS -> m ≠ xff ->
  jpeg_body (xff :: ffs ++ m :: l1 :: l2 :: tail) =
  Continue (drop (Z.to_nat (Z.max (int_from_bytes_big [l1; l2] - 2) 0)) tail).
Proof.
  intros Hff Hm Hne. unfold jpeg_body, fp_read. simpl. rewrite drop_0.
  rewrite (read_marker_padding _ _ _ Hff Hne).
  rewrite bool_decide_eq_false_2 by exact Hm. reflexivity.
Qed.

Lemma jpeg_size_at_sof data ffs m l1 l2 tail :
  take 2 data = JPEG_SOI ->
  loop_reaches jpeg_body (drop 2 data) (xff :: ffs ++ m :: l1 :: l2 :: tail) ->
  Forall (eq xff) ffs -> m ∈ JPEG_START_OF_FRAME_MARKERS ->
  jpeg_size data =
  Ok (int_from_bytes_big (slice tail 3 5), int_from_bytes_big (slice tail 1 3)).
Proof.
  intros Hsoi Hreach Hff Hm. unfold jpeg_size, fp_read.
  rewrite bool_decide_eq_true_2 by exact Hsoi. simpl.
  rewrite (while_true_reaches _ _ _ _ Hreach), while_true_step.
  rewrite (jpeg_body_sof _ _ _ _ _ Hff Hm). reflexivity.
Qed.

(** ** Claims on the parsers *)

(** C1 (the code departs from the claim).  A [.png] file holding the
    signature, the IHDR length and type and the width, 20 bytes in all, is
    parsed without any error: [read_image_size] returns the width and a
    height of 0 decoded from the empty slice [header[20:24]]. *)
Theorem png_cut_20_returns_zero_height :
  length png_cut_20 = 20%nat /\
  take 8 png_cut_20 = PNG_SIGNATURE /\
  read_image_size (one_photo "cut.png" png_cut_20) (site_photos ++ ["cut.png"])
  = Ok (100, 0).
Proof. repeat split; vm_compute; reflexivity. Qed.

Lemma slice_take data n lo hi :
  (hi <= n)%nat -> slice (take n data) lo hi = slice data lo hi.
Proof.
  intros Hn. unfold slice. rewrite skipn_firstn_comm, take_take.
  f_equal. lia.
Qed.

(** No length test stands in the PNG branch: with the signature in place
    the parser returns a pair for every length of file. *)
Lemma png_size_never_truncated data :
  take 8 data = PNG_SIGNATURE ->
  png_size data =
  Ok (int_from_bytes_big (slice data 16 20), int_from_bytes_big (slice data 20 24)).
Proof.
  intros Hsig. unfold png_size, fp_read.
  rewrite !slice_take by lia.
  change (slice data 0 8) with (take 8 data).
  rewrite bool_decide_eq_true_2 by exact Hsig. reflexivity.
Qed.

(** C4 (the code departs from the claim).  On a lossy WebP whose bytes 6-9
    of the payload are [64 40 32 80], the parser returns 0x4064 and 0x8032:
    the two scale bits of each half are kept, where the masked values
    would be 100 and 50. *)
Theorem webp_vp8_scale_bits_kept :
  read_image_size (one_photo "s.webp" webp_vp8_scaled) (site_photos ++ ["s.webp"])
  = Ok (16484, 32818) /\
  (Z.land 16484 0x3FFF, Z.land 32818 0x3FFF) = (100, 50).
Proof. split; vm_compute; reflexivity. Qed.

(** ** WebP: one chunk *)

(** What one iteration of the chunk loop does on a stream that holds a
    full chunk header. *)
Lemma webp_body_chunk t1 t2 t3 t4 s1 s2 s3 s4 tail :
  let chunk_type := [t1; t2; t3; t4] in
  let chunk_size := int_from_bytes_little [s1; s2; s3; s4] in
  let n := Z.to_nat (chunk_size + chunk_size mod 2) in
  let chunk_data := take n tail in
  webp_body (t1 :: t2 :: t3 :: t4 :: s1 :: s2 :: s3 :: s4 :: tail) =
  if bool_decide (chunk_type = VP8X ∧ 10 <= length chunk_data)%nat then
    Return (1 + int_from_bytes_little (slice chunk_data 4 7),
            1 + int_from_bytes_little (slice chunk_data 7 10))
  else if bool_decide (chunk_type = VP8_ ∧ 10 <= length chunk_data)%nat then
    Return (Z.lor (byte_at chunk_data 6) (Z.shiftl (byte_at chunk_data 7) 8),
            Z.lor (byte_at chunk_data 8) (Z.shiftl (byte_at chunk_data 9) 8))
  else if bool_decide (chunk_type = VP8L ∧ 5 <= length chunk_data)%nat then
    let bits := int_from_bytes_little (slice chunk_data 0 4) in
    Return (Z.land bits 0x3FFF + 1, Z.land (Z.shiftr bits 14) 0x3FFF + 1)
  else Continue (drop n tail).
Proof.
  intros chunk_type chunk_size n chunk_data.
  unfold webp_body, fp_read.
  change (take 8 (t1 :: t2 :: t3 :: t4 :: s1 :: s2 :: s3 :: s4 :: tail))
    with [t1; t2; t3; t4; s1; s2; s3; s4].
  change (drop 8 (t1 :: t2 :: t3 :: t4 :: s1 :: s2 :: s3 :: s4 :: tail)) with tail.
  change (slice [t1; t2; t3; t4; s1; s2; s3; s4] 0 4) with chunk_type.
  change (drop 4 [t1; t2; t3; t4; s1; s2; s3; s4]) with [s1; s2; s3; s4].
  fold chunk_size. fold n. fold chunk_data.
  rewrite bool_decide_eq_false_2 by (simpl; lia).
  rewrite !bool_decide_and. reflexivity.
Qed.

Lemma webp_size_container data :
  slice data 0 4 = RIFF -> slice data 8 12 = WEBP ->
  webp_size data =
  match while_true webp_body webp_body_consumes (drop 12 data) with
  | Some dims => Ok dims
  | None => Raise (ValueError "Could not determine WebP dimensions")
  end.
Proof.
  intros Hr Hw. unfold webp_size, fp_read.
  rewrite !slice_take by lia. rewrite Hr, Hw. reflexivity.
Qed.

(** The WebP branch has two exceptions and no third: a bad container, or
    the end of the chunk loop. *)
Lemma webp_size_errors data e :
  webp_size data = Raise e ->
  e = ValueError "Not a WebP file" \/
  e = ValueError "Could not determine WebP dimensions".
Proof.
  unfold webp_size, fp_read.
  destruct (_ || _); [intros [= <-]; by left|].
  destruct (while_true _ _ _); [discriminate|intros [= <-]; by right].
Qed.

(** C5, the claim as stated fails twice over.  A VP8X chunk that declares
    1000 bytes of payload with 10 bytes left in the file makes the parser
    succeed; a chunk of unknown type that declares 1000 bytes with 3 bytes
    left makes it raise the very exception of a container with no chunk
    at all. *)
Lemma webp_overrun_not_a_distinct_failure :
  (length (drop 20 webp_vp8x_overrun) = 10%nat /\
   int_from_bytes_little (slice webp_vp8x_overrun 16 20) = 1000 /\
   webp_size webp_vp8x_overrun = Ok (200, 100)) /\
  (length (drop 20 webp_exif_overrun) = 3%nat /\
   int_from_bytes_little (slice webp_exif_overrun 16 20) = 1000 /\
   webp_size webp_exif_overrun = webp_size webp_no_chunk /\
   webp_size webp_no_chunk =
   Raise (ValueError "Could not determine WebP dimensions")).
Proof. repeat split; vm_compute; reflexivity. Qed.

(** C5, amended.  When the chunk loop comes to a chunk whose declared
    size plus padding exceeds what is left of the file, the payload read
    is all that is left.  If the tag is recognized and that much is long
    enough (10 bytes for VP8X and VP8, 5 for VP8L), the dimensions decoded
    from it are returned; otherwise the parser raises the exception it
    raises when no chunk carries dimensions.  None of its exceptions is
    proper to reads past the end. *)
Theorem webp_overrun_chunk fs path data t1 t2 t3 t4 s1 s2 s3 s4 tail :
  lower (path_suffix path) = ".webp" ->
  fs !! path = Some (File data) ->
  slice data 0 4 = RIFF -> slice data 8 12 = WEBP ->
  loop_reaches webp_body (drop 12 data)
    (t1 :: t2 :: t3 :: t4 :: s1 :: s2 :: s3 :: s4 :: tail) ->
  let chunk_type := [t1; t2; t3; t4] in
  let chunk_size := int_from_bytes_little [s1; s2; s3; s4] in
  Z.of_nat (length tail) < chunk_size + chunk_size mod 2 ->
  read_image_size fs path =
  if bool_decide (chunk_type = VP8X ∧ 10 <= length tail)%nat then
    Ok (1 + int_from_bytes_little (slice tail 4 7),
        1 + int_from_bytes_little (slice tail 7 10))
  else if bool_decide (chunk_type = VP8_ ∧ 10 <= length tail)%nat then
    Ok (Z.lor (byte_at tail 6) (Z.shiftl (byte_at tail 7) 8),
        Z.lor (byte_at tail 8) (Z.shiftl (byte_at tail 9) 8))
  else if bool_decide (chunk_type = VP8L ∧ 5 <= length tail)%nat then
    Ok (Z.land (int_from_bytes_little (slice tail 0 4)) 0x3FFF + 1,
        Z.land (Z.shiftr (int_from_bytes_little (slice tail 0 4)) 14) 0x3FFF + 1)
  else Raise (ValueError "Could not determine WebP dimensions").
Proof.
  intros Hsuffix Hfile Hriff Hwebp Hreach chunk_type chunk_size Hover.
  rewrite (read_image_size_webp _ _ _ Hsuffix Hfile).
  rewrite (webp_size_container _ Hriff Hwebp).
  rewrite (while_true_reaches _ _ _ _ Hreach), while_true_step.
  rewrite webp_body_chunk. fold chunk_type. fold chunk_size.
  rewrite take_ge, drop_ge by lia.
  repeat (case_bool_decide; [reflexivity|]).
  rewrite while_true_step. reflexivity.
Qed.

Lemma webp_overrun_chunk_witness :
  read_image_size (one_photo "x.webp" webp_exif_overrun) (site_photos ++ ["x.webp"])
  = Raise (ValueError "Could not determine WebP dimensions").
Proof.
  apply (webp_overrun_chunk (one_photo "x.webp" webp_exif_overrun)
           (site_photos ++ ["x.webp"]) webp_exif_overrun
           x45 x58 x49 x46 xe8 x03 x00 x00 [x01; x02; x03]).
  - vm_compute; reflexivity.
  - vm_compute; reflexivity.
  - reflexivity.
  - reflexivity.
  - apply reaches_here.
  - vm_compute; reflexivity.
Defined.

(** ** Claims on the JPEG start of frame *)

(** C6.  When the marker loop comes to a start-of-frame marker (after any
    run of [FF] padding) followed by its two length bytes, the precision
    byte, two bytes of height and two bytes of width, the parser returns
    the pair (width, height), each read big-endian: the height comes first
    in the file and second in the result. *)
Theorem jpeg_sof_width_height fs path data ffs m l1 l2 p h1 h2 w1 w2 rest :
  lower (path_suffix path) ∈ [".jpg"; ".jpeg"] ->
  fs !! path = Some (File data) ->
  take 2 data = JPEG_SOI ->
  loop_reaches jpeg_body (drop 2 data)
    (xff :: ffs ++ m :: l1 :: l2 :: p :: h1 :: h2 :: w1 :: w2 :: rest) ->
  Forall (eq xff) ffs ->
  m ∈ JPEG_START_OF_FRAME_MARKERS ->
  read_image_size fs path =
  Ok (256 * byte_val w1 + byte_val w2, 256 * byte_val h1 + byte_val h2).
Proof.
  intros Hsuffix Hfile Hsoi Hreach Hff Hm.
  rewrite (read_image_size_jpeg _ _ _ Hsuffix Hfile).
  rewrite (jpeg_size_at_sof _ _ _ _ _ _ Hsoi Hreach Hff Hm).
  change (slice (p :: h1 :: h2 :: w1 :: w2 :: rest) 3 5) with [w1; w2].
  change (slice (p :: h1 :: h2 :: w1 :: w2 :: rest) 1 3) with [h1; h2].
  rewrite !int_from_bytes_big_2. reflexivity.
Qed.

Lemma jpeg_sof_width_height_witness :
  read_image_size (one_photo "a.jpg" jpg_200x100) (site_photos ++ ["a.jpg"])
  = Ok (200, 100).
Proof.
  apply (jpeg_sof_width_height (one_photo "a.jpg" jpg_200x100)
           (site_photos ++ ["a.jpg"]) jpg_200x100
           [] xc0 x00 x11 x08 x00 x64 x00 xc8 [x03]).
  - vm_compute. repeat constructor.
  - vm_compute; reflexivity.
  - reflexivity.
  - eapply reaches_step; [vm_compute; reflexivity|apply reaches_here].
  - constructor.
  - vm_compute. repeat constructor.
Defined.

(** C10, as worded, fails on a short read: in [jpg_cut_in_width] four
    bytes follow the segment length, the read of the width returns the one
    byte [01], and the width comes out as 1, not as 0. *)
Lemma jpeg_short_read_not_zero :
  take 6 jpg_cut_in_width = [xff; xd8; xff; xc0; x00; x11] /\
  (length (drop 6 jpg_cut_in_width) < 5)%nat /\
  fp_read 2 (drop 9 jpg_cut_in_width) = ([x01], []) /\
  read_image_size (one_photo "c.jpg" jpg_cut_in_width) (site_photos ++ ["c.jpg"])
  = Ok (1, 100) /\
  1 <> 0.
Proof. vm_compute. repeat split; (reflexivity || discriminate || lia). Qed.

(** C10, amended.  When the file ends inside a start-of-frame segment,
    after its two length bytes and with fewer than five bytes left, the
    parser still returns a pair and raises nothing.  The height is decoded
    from what is left after the precision byte and the width from what is
    left after the height: a field of which no byte is left is 0, a field
    of which one byte is left is the value of that byte, and a field that
    is whole is read big-endian. *)
Theorem jpeg_sof_cut_short fs path data ffs m l1 l2 tail :
  lower (path_suffix path) ∈ [".jpg"; ".jpeg"] ->
  fs !! path = Some (File data) ->
  take 2 data = JPEG_SOI ->
  loop_reaches jpeg_body (drop 2 data) (xff :: ffs ++ m :: l1 :: l2 :: tail) ->
  Forall (eq xff) ffs ->
  m ∈ JPEG_START_OF_FRAME_MARKERS ->
  (length tail < 5)%nat ->
  read_image_size fs path =
  Ok (match drop 3 tail with
      | [] => 0
      | [w1] => byte_val w1
      | w1 :: w2 :: _ => 256 * byte_val w1 + byte_val w2
      end,
      match drop 1 tail with
      | [] => 0
      | [h1] => byte_val h1
      | h1 :: h2 :: _ => 256 * byte_val h1 + byte_val h2
      end).
Proof.
  intros Hsuffix Hfile Hsoi Hreach Hff Hm Hlen.
  rewrite (read_image_size_jpeg _ _ _ Hsuffix Hfile).
  rewrite (jpeg_size_at_sof _ _ _ _ _ _ Hsoi Hreach Hff Hm).
  unfold slice, int_from_bytes_big.
  destruct tail as [|b0 [|b1 [|b2 [|b3 [|b4 tail]]]]]; simpl in *;
    try lia; do 2 f_equal; lia.
Qed.

Lemma jpeg_sof_cut_short_witness :
  read_image_size (one_photo "d.jpg" jpg_cut_in_height) (site_photos ++ ["d.jpg"])
  = Ok (0, 100).
Proof.
  apply (jpeg_sof_cut_short (one_photo "d.jpg" jpg_cut_in_height)
           (site_photos ++ ["d.jpg"]) jpg_cut_in_height
           [] xc0 x00 x11 [x08; x64]).
  - vm_compute. repeat constructor.
  - vm_compute; reflexivity.
  - reflexivity.
  - apply reaches_here.
  - constructor.
  - vm_compute. repeat constructor.
  - simpl; lia.
Defined.

(** ** The resolver *)

(** The same holds whenever the collaborator is there but fails. *)
Lemma get_image_dimensions_fallback pil fs path :
  pil_size pil fs path = None ->
  get_image_dimensions (Some pil) fs path = read_image_size fs path.
Proof. intros H. unfold get_image_dimensions. rewrite H. reflexivity. Qed.

(** ** The order on paths and [sorted] *)

Lemma ascii_compare_refl a : Ascii.compare a a = Eq.
Proof. unfold Ascii.compare. apply N.compare_refl. Qed.

Lemma ascii_compare_lt_trans a b c :
  Ascii.compare a b = Lt -> Ascii.compare b c = Lt -> Ascii.compare a c = Lt.
Proof.
  unfold Ascii.compare. rewrite !N.compare_lt_iff. apply N.lt_trans.
Qed.

Lemma string_compare_refl s : String.compare s s = Eq.
Proof.
  induction s as [|a s IH]; simpl; [reflexivity|].
  rewrite ascii_compare_refl. exact IH.
Qed.

Lemma string_compare_lt_trans s1 s2 s3 :
  String.compare s1 s2 = Lt -> String.compare s2 s3 = Lt ->
  String.compare s1 s3 = Lt.
Proof.
  revert s2 s3. induction s1 as [|a s1 IH]; intros [|b s2] [|c s3]; simpl;
    try discriminate; try reflexivity.
  destruct (Ascii.compare a b) eqn:Hab; try discriminate;
    destruct (Ascii.compare b c) eqn:Hbc; try discriminate.
  - apply Ascii.compare_eq_iff in Hab as ->. rewrite Hbc. apply IH.
  - apply Ascii.compare_eq_iff in Hab as ->. rewrite Hbc. reflexivity.
  - apply Ascii.compare_eq_iff in Hbc as <-. rewrite Hab. reflexivity.
  - rewrite (ascii_compare_lt_trans _ _ _ Hab Hbc). reflexivity.
Qed.

Lemma path_compare_refl p : path_compare p p = Eq.
Proof.
  induction p as [|a p IH]; simpl; [reflexivity|].
  rewrite string_compare_refl. exact IH.
Qed.

Lemma path_compare_eq p q : path_compare p q = Eq -> p = q.
Proof.
  revert q. induction p as [|a p IH]; intros [|b q]; simpl;
    try discriminate; [reflexivity|].
  destruct (String.compare a b) eqn:Hab; try discriminate.
  apply String.compare_eq_iff in Hab as ->. intros H. f_equal. by apply IH.
Qed.

Lemma path_compare_antisym p q :
  path_compare q p = CompOpp (path_compare p q).
Proof.
  revert q. induction p as [|a p IH]; intros [|b q]; simpl; try reflexivity.
  rewrite (String.compare_antisym b a).
  destruct (String.compare a b); simpl; [apply IH|reflexivity|reflexivity].
Qed.

Lemma path_compare_lt_trans p q r :
  path_compare p q = Lt -> path_compare q r = Lt -> path_compare p r = Lt.
Proof.
  revert q r. induction p as [|a p IH]; intros [|b q] [|c r]; simpl;
    try discriminate; try reflexivity.
  destruct (String.compare a b) eqn:Hab; try discriminate;
    destruct (String.compare b c) eqn:Hbc; try discriminate.
  - apply String.compare_eq_iff in Hab as ->. rewrite Hbc. apply IH.
  - apply String.compare_eq_iff in Hab as ->. rewrite Hbc. reflexivity.
  - apply String.compare_eq_iff in Hbc as <-. rewrite Hab. reflexivity.
  - rewrite (string_compare_lt_trans _ _ _ Hab Hbc). reflexivity.
Qed.

(** Entries of one directory are ordered as their names are. *)
Lemma path_compare_same_dir d a b :
  path_compare (d ++ [a]) (d ++ [b]) = String.compare a b.
Proof.
  induction d as [|c d IH]; simpl.
  - by destruct (String.compare a b).
  - by rewrite string_compare_refl.
Qed.

Lemma path_le_compare p q : path_le p q <-> path_compare p q ≠ Gt.
Proof.
  unfold path_le, path_ltb. rewrite (path_compare_antisym p q).
  destruct (path_compare p q); simpl; split; congruence.
Qed.

Lemma path_ltb_le p q : path_ltb p q = true -> path_le p q.
Proof.
  unfold path_ltb. intros H. apply path_le_compare.
  destruct (path_compare p q); congruence.
Qed.

#[global] Instance path_le_trans : Transitive path_le.
Proof.
  intros p q r. rewrite !path_le_compare. intros Hpq Hqr.
  destruct (path_compare p q) eqn:H1; [| |done].
  - apply path_compare_eq in H1 as ->. exact Hqr.
  - destruct (path_compare q r) eqn:H2; [| |done].
    + apply path_compare_eq in H2 as <-. congruence.
    + rewrite (path_compare_lt_trans _ _ _ H1 H2). done.
Qed.

Lemma path_le_neq_ltb p q : path_le p q -> p ≠ q -> path_ltb p q = true.
Proof.
  rewrite path_le_compare. unfold path_ltb. intros Hle Hne.
  destruct (path_compare p q) eqn:H; [|done|done].
  by apply path_compare_eq in H.
Qed.

Lemma insert_sorted_perm x l : insert_sorted x l ≡ₚ x :: l.
Proof.
  induction l as [|y l IH]; simpl; [done|].
  destruct (path_ltb y x); [|done].
  rewrite IH. apply Permutation_swap.
Qed.

Lemma sorted_perm l : sorted l ≡ₚ l.
Proof.
  induction l as [|x l IH]; simpl; [done|].
  rewrite insert_sorted_perm. by f_equiv.
Qed.

Lemma insert_sorted_StronglySorted x l :
  StronglySorted path_le l -> StronglySorted path_le (insert_sorted x l).
Proof.
  induction 1 as [|y l Hs IH Hall]; simpl.
  - by repeat constructor.
  - destruct (path_ltb y x) eqn:Hyx.
    + constructor; [exact IH|].
      rewrite insert_sorted_perm. constructor; [|exact Hall].
      by apply path_ltb_le.
    + constructor; [by constructor|].
      constructor; [exact Hyx|].
      eapply Forall_impl; [exact Hall|].
      intros z Hz. by transitivity y.
Qed.

Lemma sorted_StronglySorted l : StronglySorted path_le (sorted l).
Proof.
  induction l as [|x l IH]; simpl; [constructor|].
  by apply insert_sorted_StronglySorted.
Qed.

(** A list without repetition is sorted strictly. *)
Lemma StronglySorted_strict l :
  StronglySorted path_le l -> NoDup l ->
  StronglySorted (fun p q => path_ltb p q = true) l.
Proof.
  induction 1 as [|x l Hs IH Hall]; intros Hnd; [constructor|].
  apply NoDup_cons in Hnd as [Hx Hnd].
  constructor; [by apply IH|].
  rewrite Forall_forall in *. intros y Hy.
  apply path_le_neq_ltb; [by apply Hall|].
  intros ->. by apply Hx, list_elem_of_In.
Qed.

Lemma StronglySorted_filter {A} (R : relation A) (P : A -> Prop)
    `{forall x, Decision (P x)} l :
  StronglySorted R l -> StronglySorted R (filter P l).
Proof.
  induction 1 as [|x l Hs IH Hall]; [constructor|].
  rewrite filter_cons. destruct (decide (P x)); [|exact IH].
  constructor; [exact IH|].
  rewrite Forall_forall in *. intros y [_ Hy]%list_elem_of_filter. by apply Hall.
Qed.

Lemma iterdir_spec fs d entries :
  iterdir fs d = Ok entries ->
  NoDup entries /\ forall p, p ∈ entries -> path_parent p = d /\ is_Some (fs !! p).
Proof.
  unfold iterdir. destruct (fs !! d) as [[]|]; try discriminate.
  intros [= <-]. split.
  - apply NoDup_filter, NoDup_fst_map_to_list.
  - intros p [[_ Hp] Hin]%list_elem_of_filter. split; [exact Hp|].
    apply list_elem_of_fmap in Hin as [[p' n] [-> Hin]].
    apply elem_of_map_to_list in Hin. eauto.
Qed.

(** ** The manual parsers never return a negative number *)

Lemma jpeg_body_nonneg fp width height :
  jpeg_body fp = Return (width, height) -> 0 <= width /\ 0 <= height.
Proof.
  unfold jpeg_body, fp_read.
  destruct (take 1 fp) as [|b ?]; [discriminate|].
  destruct (negb _); [discriminate|].
  destruct (read_marker _) as [[|m ?] fp1]; [discriminate|].
  destruct (bool_decide (m ∈ _)).
  - destruct (negb _); [discriminate|].
    intros [= <- <-]. split; apply int_from_bytes_big_nonneg.
  - destruct (negb _); discriminate.
Qed.

Lemma webp_body_nonneg fp width height :
  webp_body fp = Return (width, height) -> 0 <= width /\ 0 <= height.
Proof.
  unfold webp_body, fp_read.
  destruct (bool_decide (_ < 8)%nat); [discriminate|].
  destruct (_ && _).
  { intros [= <- <-].
    split; match goal with |- 0 <= 1 + int_from_bytes_little ?l =>
      pose proof (int_from_bytes_little_nonneg l); lia end. }
  destruct (_ && _).
  { intros [= <- <-].
    split; apply Z.lor_nonneg; split;
      try apply Z.shiftl_nonneg; apply byte_at_nonneg. }
  destruct (_ && _); [|discriminate].
  intros [= <- <-].
  split; match goal with |- 0 <= Z.land ?a ?b + 1 =>
    assert (0 <= Z.land a b) by (apply Z.land_nonneg; right; lia); lia end.
Qed.

Lemma read_image_size_nonneg fs path width height :
  read_image_size fs path = Ok (width, height) -> 0 <= width /\ 0 <= height.
Proof.
  unfold read_image_size, open_rb.
  destruct (bool_decide (_ ∈ _)); [|destruct (bool_decide _); [|destruct (bool_decide _)]];
    try discriminate;
    (destruct (fs !! path) as [[data|]|]; [|discriminate|discriminate]);
    simpl.
  - unfold jpeg_size, fp_read. destruct (negb _); [discriminate|].
    destruct (while_true _ _ _) as [dims|] eqn:Hw; [|discriminate].
    intros [= ->].
    apply while_true_Some in Hw as (fp' & _ & Hret).
    by apply jpeg_body_nonneg in Hret.
  - unfold png_size, fp_read. destruct (negb _); [discriminate|].
    intros [= <- <-]. split; apply int_from_bytes_big_nonneg.
  - unfold webp_size, fp_read. destruct (_ || _); [discriminate|].
    destruct (while_true _ _ _) as [dims|] eqn:Hw; [|discriminate].
    intros [= ->].
    apply while_true_Some in Hw as (fp' & _ & Hret).
    by apply webp_body_nonneg in Hret.
Qed.

(** What is asked of a collaborator for the sizes to stay non-negative. *)
Definition pillow_sizes_nonneg (Image : option Pillow) : Prop :=
  forall pil path content width height,
    Image = Some pil ->
    pil_open_size pil path content = Some (width, height) ->
    0 <= width /\ 0 <= height.

Lemma get_image_dimensions_nonneg Image fs path width height :
  pillow_sizes_nonneg Image ->
  get_image_dimensions Image fs path = Ok (width, height) ->
  0 <= width /\ 0 <= height.
Proof.
  intros Hpil. unfold get_image_dimensions.
  destruct Image as [pil|]; [|apply read_image_size_nonneg].
  destruct (pil_size pil fs path) as [dims|] eqn:Hsize;
    [|apply read_image_size_nonneg].
  intros [= ->]. unfold pil_size in Hsize.
  destruct (fs !! path) as [[content|]|]; try discriminate.
  by eapply Hpil.
Qed.

(** ** Keys of a serialized item *)

Lemma to_dict_w self : dict_get "w" (to_dict self) = Some (JInt (w self)).
Proof.
  unfold to_dict.
  destruct (truthy_str (thumb self)), (truthy_int (thumbWidth self) && _),
    (truthy_str (caption self)); reflexivity.
Qed.

Lemma to_dict_h self : dict_get "h" (to_dict self) = Some (JInt (h self)).
Proof.
  unfold to_dict.
  destruct (truthy_str (thumb self)), (truthy_int (thumbWidth self) && _),
    (truthy_str (caption self)); reflexivity.
Qed.

Lemma to_dict_alt self : dict_get "alt" (to_dict self) = Some (JStr (alt self)).
Proof.
  unfold to_dict.
  destruct (truthy_str (thumb self)), (truthy_int (thumbWidth self) && _),
    (truthy_str (caption self)); reflexivity.
Qed.

Lemma to_dict_thumb self :
  dict_get "thumb" (to_dict self) =
  if truthy_str (thumb self) then Some (JStr (default "" (thumb self))) else None.
Proof.
  unfold to_dict.
  destruct (truthy_str (thumb self)), (truthy_int (thumbWidth self) && _),
    (truthy_str (caption self)); reflexivity.
Qed.

Lemma to_dict_thumbWidth self :
  dict_get "thumbWidth" (to_dict self) =
  if truthy_int (thumbWidth self) && truthy_int (thumbHeight self)
  then Some (JInt (default 0 (thumbWidth self))) else None.
Proof.
  unfold to_dict.
  destruct (truthy_str (thumb self)), (truthy_int (thumbWidth self) && _),
    (truthy_str (caption self)); reflexivity.
Qed.

Lemma to_dict_thumbHeight self :
  dict_get "thumbHeight" (to_dict self) =
  if truthy_int (thumbWidth self) && truthy_int (thumbHeight self)
  then Some (JInt (default 0 (thumbHeight self))) else None.
Proof.
  unfold to_dict.
  destruct (truthy_str (thumb self)), (truthy_int (thumbWidth self) && _),
    (truthy_str (caption self)); reflexivity.
Qed.

Lemma to_dict_caption self :
  dict_get "caption" (to_dict self) =
  if truthy_str (caption self) then Some (JStr (default "" (caption self))) else None.
Proof.
  unfold to_dict.
  destruct (truthy_str (thumb self)), (truthy_int (thumbWidth self) && _),
    (truthy_str (caption self)); reflexivity.
Qed.

(** ** Relative paths *)

Lemma strip_prefix_app base p rel :
  strip_prefix base p = Some rel -> p = base ++ rel.
Proof.
  revert p. induction base as [|b base IH]; intros p; simpl.
  - by intros [= ->].
  - destruct p as [|c p]; [discriminate|].
    case_bool_decide; [|discriminate]. subst c.
    intros H. f_equal. by apply IH.
Qed.

Lemma join_posix_last_nonempty p name :
  name ≠ "" -> join_posix (p ++ [name]) ≠ "".
Proof.
  intros Hname. destruct p as [|c [|c' p]]; simpl.
  - exact Hname.
  - destruct c; discriminate.
  - destruct c; discriminate.
Qed.

Lemma as_posix_relative_nonempty dir name base rel :
  name ≠ "" ->
  relative_to (dir ++ [name]) base = Ok rel -> as_posix rel ≠ "".
Proof.
  intros Hname. unfold relative_to.
  destruct (strip_prefix _ _) as [rel'|] eqn:Hs; [|discriminate].
  intros [= ->]. apply strip_prefix_app in Hs.
  destruct rel as [|c rel _] using rev_ind; [discriminate|].
  rewrite app_assoc in Hs. apply app_inj_tail in Hs as [_ <-].
  unfold as_posix. destruct (rel ++ [name]) eqn:E.
  - by destruct rel.
  - rewrite <- E. by apply join_posix_last_nonempty.
Qed.

(** ** The manifest loop *)

(** [same_outside d fs fs']: [fs'] differs from [fs] only at entries
    directly below [d]. *)
Definition same_outside (d : Path) (fs fs' : FS) : Prop :=
  forall p, path_parent p ≠ d -> fs' !! p = fs !! p.

Lemma same_outside_refl d fs : same_outside d fs fs.
Proof. by intros p _. Qed.

Lemma same_outside_trans d fs1 fs2 fs3 :
  same_outside d fs1 fs2 -> same_outside d fs2 fs3 -> same_outside d fs1 fs3.
Proof. intros H12 H23 p Hp. rewrite (H23 p Hp). by apply H12. Qed.

Lemma same_outside_insert d fs name n :
  same_outside d fs (<[d ++ [name] := n]> fs).
Proof.
  intros p Hp. apply lookup_insert_ne. intros <-. apply Hp.
  unfold path_parent. apply removelast_last.
Qed.

Section BuildFacts.
Variable Image : option Pillow.
Variables photos_dir thumbs_dir : Path.
Variable max_edge : Z.
Variable skip_thumbs : bool.

(** What the loop puts in the item of a photo, read on the files as
    they were when the build started. *)
Definition item_of (fs : FS) (photo : Path) (item : GalleryItem) : Prop :=
  get_image_dimensions Image fs photo = Ok (w item, h item) /\
  (exists rel, relative_to photo (path_parent photos_dir) = Ok rel /\
               src item = as_posix rel) /\
  alt item = describe_alt photo /\
  caption item = Some (alt item) /\
  (is_Some (thumbWidth item) <-> is_Some (thumbHeight item)) /\
  (is_Some (thumbWidth item) ->
   exists rel,
     relative_to (thumbs_dir ++ [path_name photo]) (path_parent photos_dir) = Ok rel /\
     thumb item = Some (as_posix rel)).

Lemma get_image_dimensions_ext fs fs' path :
  fs' !! path = fs !! path ->
  get_image_dimensions Image fs' path = get_image_dimensions Image fs path.
Proof.
  intros H. unfold get_image_dimensions, pil_size, read_image_size, open_rb.
  rewrite H. reflexivity.
Qed.

Lemma generate_thumbnail_outside fs source name dims fs' :
  generate_thumbnail Image fs source (thumbs_dir ++ [name]) max_edge = (dims, fs') ->
  same_outside thumbs_dir fs fs'.
Proof.
  unfold generate_thumbnail. destruct Image as [pil|].
  - destruct (pil_thumbnail _ _ _ _ _) as [c d|[c|]]; intros [= <- <-];
      auto using same_outside_insert, same_outside_refl.
  - intros [= <- <-]. apply same_outside_refl.
Qed.

Lemma resolve_thumbnail_spec fs photo r fs' :
  resolve_thumbnail Image photos_dir thumbs_dir max_edge skip_thumbs fs photo = (r, fs') ->
  same_outside thumbs_dir fs fs' /\
  forall thumb_rel tw th, r = Ok (thumb_rel, tw, th) ->
    (is_Some tw <-> is_Some th) /\
    (is_Some tw ->
     exists rel,
       relative_to (thumbs_dir ++ [path_name photo]) (path_parent photos_dir) = Ok rel /\
       thumb_rel = Some (as_posix rel)).
Proof.
  unfold resolve_thumbnail.
  set (thumb_path := thumbs_dir ++ [path_name photo]).
  destruct (bool_decide (Image ≠ None) && negb skip_thumbs).
  - destruct (generate_thumbnail _ _ _ _ _) as [dims fs1] eqn:Hgen.
    apply generate_thumbnail_outside in Hgen.
    destruct dims as [[tw0 th0]|].
    + destruct (relative_to thumb_path _) as [rel|e] eqn:Hrel; simpl.
      * intros [= <- <-]. split; [exact Hgen|].
        intros ? ? ? [= <- <- <-]. split; [split; eauto|eauto].
      * intros [= <- <-]. split; [exact Hgen|]. discriminate.
    + simpl. destruct (path_exists fs1 thumb_path).
      * destruct (relative_to thumb_path _) as [rel|e] eqn:Hrel.
        -- destruct (get_image_dimensions _ _ _) as [[tw1 th1]|e];
             intros [= <- <-]; (split; [exact Hgen|]);
             intros ? ? ? [= <- <- <-]; (split; [split|]);
             eauto; intros []; discriminate.
        -- intros [= <- <-]. split; [exact Hgen|]. discriminate.
      * intros [= <- <-]. split; [exact Hgen|].
        intros ? ? ? [= <- <- <-]. split; [split|]; intros []; discriminate.
  - simpl. destruct (path_exists fs thumb_path).
    + destruct (relative_to thumb_path _) as [rel|e] eqn:Hrel.
      * destruct (get_image_dimensions _ _ _) as [[tw1 th1]|e];
          intros [= <- <-]; (split; [apply same_outside_refl|]);
          intros ? ? ? [= <- <- <-]; (split; [split|]);
          eauto; intros []; discriminate.
      * intros [= <- <-]. split; [apply same_outside_refl|]. discriminate.
    + intros [= <- <-]. split; [apply same_outside_refl|].
      intros ? ? ? [= <- <- <-]. split; [split|]; intros []; discriminate.
Qed.

Lemma build_item_spec fs photo item fs' :
  build_item Image photos_dir thumbs_dir max_edge skip_thumbs fs photo = (Ok item, fs') ->
  item_of fs photo item /\ same_outside thumbs_dir fs fs'.
Proof.
  unfold build_item.
  destruct (get_image_dimensions Image fs photo) as [[width height]|e] eqn:Hdims;
    [|discriminate].
  destruct (resolve_thumbnail _ _ _ _ _ _ _) as [r fs1] eqn:Hthumb.
  apply resolve_thumbnail_spec in Hthumb as [Hout Hthumb].
  destruct r as [[[thumb_rel tw] th]|e]; [|discriminate]. simpl.
  destruct (relative_to photo _) as [rel|e] eqn:Hrel; [|discriminate]. simpl.
  intros [= <- <-]. split; [|exact Hout].
  destruct (Hthumb _ _ _ eq_refl) as [Hboth Hrelthumb].
  unfold item_of; simpl. eauto 10.
Qed.

Lemma build_item_raise fs photo e fs' :
  build_item Image photos_dir thumbs_dir max_edge skip_thumbs fs photo = (Raise e, fs') ->
  same_outside thumbs_dir fs fs'.
Proof.
  unfold build_item.
  destruct (get_image_dimensions Image fs photo) as [[width height]|e0];
    [|intros [= <- <-]; apply same_outside_refl].
  destruct (resolve_thumbnail _ _ _ _ _ _ _) as [r fs1] eqn:Hthumb.
  apply resolve_thumbnail_spec in Hthumb as [Hout _].
  by intros [= _ <-].
Qed.

Lemma is_candidate_ext fs fs' photo :
  fs' !! photo = fs !! photo ->
  is_candidate thumbs_dir fs' photo = is_candidate thumbs_dir fs photo.
Proof. intros H. unfold is_candidate, is_file. rewrite H. reflexivity. Qed.

Lemma is_candidate_in_thumbs fs photo :
  path_parent photo = thumbs_dir -> is_candidate thumbs_dir fs photo = false.
Proof.
  intros H. unfold is_candidate. by rewrite bool_decide_eq_true_2.
Qed.

Lemma build_loop_cons fs photo photos items :
  build_loop Image photos_dir thumbs_dir max_edge skip_thumbs fs (photo :: photos) items =
  if is_candidate thumbs_dir fs photo then
    match build_item Image photos_dir thumbs_dir max_edge skip_thumbs fs photo with
    | (Raise e, fs) => (Raise e, fs)
    | (Ok item, fs) =>
      build_loop Image photos_dir thumbs_dir max_edge skip_thumbs fs photos (items ++ [item])
    end
  else build_loop Image photos_dir thumbs_dir max_edge skip_thumbs fs photos items.
Proof.
  simpl. unfold is_candidate.
  destruct (bool_decide (path_parent photo = thumbs_dir)),
    (is_file fs photo), (bool_decide (_ ∈ _)); reflexivity.
Qed.

Lemma is_candidate_same fs0 fs photo :
  same_outside thumbs_dir fs0 fs ->
  is_candidate thumbs_dir fs photo = is_candidate thumbs_dir fs0 photo.
Proof.
  intros Hfs. destruct (decide (path_parent photo = thumbs_dir)) as [Hin|Hout].
  - by rewrite !is_candidate_in_thumbs.
  - apply is_candidate_ext. by apply Hfs.
Qed.

Lemma is_candidate_outside fs photo :
  is_candidate thumbs_dir fs photo = true -> path_parent photo ≠ thumbs_dir.
Proof.
  intros Hc Hin. by rewrite is_candidate_in_thumbs in Hc.
Qed.

(** The loop, on entries of [photos_dir]: it ends with one item for each
    candidate, in the order of the entries, appended to the items it
    started with. *)
Lemma build_loop_spec fs0 photos : forall fs items out fs',
  same_outside thumbs_dir fs0 fs ->
  build_loop Image photos_dir thumbs_dir max_edge skip_thumbs fs photos items
    = (Ok out, fs') ->
  exists new,
    out = items ++ new /\
    Forall2 (item_of fs0) (filter (fun p => is_candidate thumbs_dir fs0 p) photos) new.
Proof.
  induction photos as [|photo photos IH]; intros fs items out fs' Hfs.
  - intros [= <- <-]. exists []. split; [by rewrite app_nil_r|constructor].
  - rewrite build_loop_cons, filter_cons, (is_candidate_same fs0 fs) by done.
    destruct (is_candidate thumbs_dir fs0 photo) eqn:Hcand.
    + rewrite decide_True by done.
      destruct (build_item _ _ _ _ _ _ _) as [[item|e] fs1] eqn:Hitem; [|discriminate].
      apply build_item_spec in Hitem as [Hitem Hout].
      intros Hloop.
      apply IH in Hloop as (new & -> & Hnew);
        [|by eapply same_outside_trans].
      exists (item :: new). split; [by rewrite <- app_assoc|].
      constructor; [|exact Hnew].
      destruct Hitem as (Hdims & Hrest). split; [|exact Hrest].
      rewrite <- Hdims. symmetry. apply get_image_dimensions_ext.
      by apply Hfs, is_candidate_outside with fs0.
    + rewrite decide_False by (by intros []). by apply IH.
Qed.

Lemma build_gallery_items_spec fs out fs' :
  build_gallery_items Image photos_dir thumbs_dir max_edge skip_thumbs fs = (Ok out, fs') ->
  exists entries,
    iterdir fs photos_dir = Ok entries /\
    Forall2 (item_of fs)
      (filter (fun p => is_candidate thumbs_dir fs p) (sorted entries)) out.
Proof.
  unfold build_gallery_items.
  destruct (iterdir fs photos_dir) as [entries|e] eqn:Hiter; [|discriminate].
  intros Hloop. exists entries. split; [reflexivity|].
  apply (build_loop_spec fs) in Hloop as (new & -> & Hnew);
    [exact Hnew|apply same_outside_refl].
Qed.

Lemma build_gallery_items_items fs out :
  (build_gallery_items Image photos_dir thumbs_dir max_edge skip_thumbs fs).1 = Ok out ->
  exists entries,
    iterdir fs photos_dir = Ok entries /\
    Forall2 (item_of fs)
      (filter (fun p => is_candidate thumbs_dir fs p) (sorted entries)) out.
Proof.
  destruct (build_gallery_items _ _ _ _ _ fs) as [r fs'] eqn:Hbuild.
  simpl. intros ->. by eapply build_gallery_items_spec.
Qed.
End BuildFacts.

Lemma Forall2_elem_of_r {A B} (R : A -> B -> Prop) l k y :
  Forall2 R l k -> y ∈ k -> exists x, x ∈ l /\ R x y.
Proof.
  induction 1 as [|x y' l k HR _ IH]; intros Hy.
  - by apply elem_of_nil in Hy.
  - apply elem_of_cons in Hy as [->|Hy].
    + exists x. split; [left|exact HR].
    + destruct (IH Hy) as (x' & Hx' & HR'). exists x'. split; [by right|exact HR'].
Qed.

Lemma Forall2_elem_of_l {A B} (R : A -> B -> Prop) l k x :
  Forall2 R l k -> x ∈ l -> exists y, y ∈ k /\ R x y.
Proof.
  induction 1 as [|x' y l k HR _ IH]; intros Hx.
  - by apply elem_of_nil in Hx.
  - apply elem_of_cons in Hx as [->|Hx].
    + exists y. split; [left|exact HR].
    + destruct (IH Hx) as (y' & Hy' & HR'). exists y'. split; [by right|exact HR'].
Qed.

(** ** Claims on the manifest *)

(** C8.  When a manifest is built, its items are, one for one and in
    this order, the candidate files among the sorted entries of the
    directory; the sorted entries are the entries of the directory put in
    strictly increasing order of path (component lists compared
    lexicographically), and nothing else orders the items.  Each item
    carries the path of its file relative to the parent of the directory. *)
Theorem manifest_order Image photos_dir thumbs_dir max_edge skip_thumbs fs items :
  (build_gallery_items Image photos_dir thumbs_dir max_edge skip_thumbs fs).1 = Ok items ->
  exists entries,
    iterdir fs photos_dir = Ok entries /\
    sorted entries ≡ₚ entries /\
    StronglySorted (fun p q => path_ltb p q = true) (sorted entries) /\
    let photos := filter (fun p => is_candidate thumbs_dir fs p) (sorted entries) in
    StronglySorted (fun p q => path_ltb p q = true) photos /\
    Forall2 (fun photo item =>
               exists rel, relative_to photo (path_parent photos_dir) = Ok rel /\
                           src item = as_posix rel) photos items.
Proof.
  intros Hbuild.
  apply build_gallery_items_items in Hbuild as (entries & Hiter & Hitems).
  exists entries. split; [exact Hiter|]. split; [apply sorted_perm|].
  assert (StronglySorted (fun p q => path_ltb p q = true) (sorted entries)) as Hs.
  { apply StronglySorted_strict; [apply sorted_StronglySorted|].
    rewrite sorted_perm. by apply iterdir_spec in Hiter as [Hnd _]. }
  split; [exact Hs|]. split; [by apply StronglySorted_filter|].
  eapply Forall2_impl; [exact Hitems|].
  intros photo item (_ & Hsrc & _). exact Hsrc.
Qed.

(** The directory of the example: [b.png] and [a.jpg] give the items of
    [a.jpg] and of [b.png], in this order. *)
Lemma manifest_order_witness :
  (build_gallery_items None site_photos site_thumbs 1200 false two_photos).1
  = Ok [ {| src := "photos/a.jpg"; w := 200; h := 100; alt := "a";
            thumb := None; thumbWidth := None; thumbHeight := None;
            caption := Some "a" |};
         {| src := "photos/b.png"; w := 100; h := 50; alt := "b";
            thumb := None; thumbWidth := None; thumbHeight := None;
            caption := Some "b" |} ] /\
  exists entries,
    iterdir two_photos site_photos = Ok entries /\
    sorted entries ≡ₚ entries /\
    StronglySorted (fun p q => path_ltb p q = true) (sorted entries) /\
    let photos := filter (fun p => is_candidate site_thumbs two_photos p) (sorted entries) in
    StronglySorted (fun p q => path_ltb p q = true) photos /\
    Forall2 (fun photo item =>
               exists rel, relative_to photo (path_parent site_photos) = Ok rel /\
                           src item = as_posix rel) photos
      [ {| src := "photos/a.jpg"; w := 200; h := 100; alt := "a";
           thumb := None; thumbWidth := None; thumbHeight := None;
           caption := Some "a" |};
        {| src := "photos/b.png"; w := 100; h := 50; alt := "b";
           thumb := None; thumbWidth := None; thumbHeight := None;
           caption := Some "b" |} ].
Proof.
  split; [vm_compute; reflexivity|].
  apply (manifest_order None site_photos site_thumbs 1200 false two_photos).
  vm_compute; reflexivity.
Defined.

(** C9.  Every item of a built manifest has its caption set, equal to
    its alt text, which is [describe_alt] of its file; its serialization
    has the key [alt], and when the alt text is not empty it has the key
    [caption] with the same string. *)
Theorem caption_equals_alt Image photos_dir thumbs_dir max_edge skip_thumbs fs items item :
  (build_gallery_items Image photos_dir thumbs_dir max_edge skip_thumbs fs).1 = Ok items ->
  item ∈ items ->
  caption item = Some (alt item) /\
  (exists photo, is_candidate thumbs_dir fs photo = true /\
                 alt item = describe_alt photo) /\
  dict_get "alt" (to_dict item) = Some (JStr (alt item)) /\
  (alt item ≠ "" -> dict_get "caption" (to_dict item) = Some (JStr (alt item))).
Proof.
  intros Hbuild Hitem.
  apply build_gallery_items_items in Hbuild as (entries & _ & Hitems).
  destruct (Forall2_elem_of_r _ _ _ _ Hitems Hitem)
    as (photo & Hphoto & _ & _ & Halt & Hcaption & _).
  split; [exact Hcaption|]. split.
  { exists photo. split; [|exact Halt].
    apply list_elem_of_filter in Hphoto as [Hc _]. by apply Is_true_eq_true. }
  split; [apply to_dict_alt|].
  intros Hne. rewrite to_dict_caption, Hcaption. simpl.
  by rewrite bool_decide_eq_false_2.
Qed.

Lemma caption_equals_alt_witness :
  let item := {| src := "photos/b.png"; w := 100; h := 50; alt := "b";
                 thumb := None; thumbWidth := None; thumbHeight := None;
                 caption := Some "b" |} in
  caption item = Some (alt item) /\
  (exists photo, is_candidate site_thumbs two_photos photo = true /\
                 alt item = describe_alt photo) /\
  dict_get "alt" (to_dict item) = Some (JStr (alt item)) /\
  (alt item ≠ "" -> dict_get "caption" (to_dict item) = Some (JStr (alt item))).
Proof.
  eapply (caption_equals_alt None site_photos site_thumbs 1200 false two_photos).
  - vm_compute; reflexivity.
  - right; left.
Defined.

(** C3, the claim as stated fails.  In a directory holding [a.jpg], an
    [a.png] that is not a PNG, and [b.png], the resolver fails on [a.png]
    and the whole build raises that exception: no manifest comes out,
    although [b.png] is a candidate whose dimensions resolve. *)
Lemma one_failure_aborts_build :
  (build_gallery_items None site_photos site_thumbs 1200 false broken_first).1
  = Raise (ValueError "Not a PNG file") /\
  get_image_dimensions None broken_first (site_photos ++ ["a.png"])
  = Raise (ValueError "Not a PNG file") /\
  is_candidate site_thumbs broken_first (site_photos ++ ["b.png"]) = true /\
  get_image_dimensions None broken_first (site_photos ++ ["b.png"]) = Ok (100, 50).
Proof. repeat split; vm_compute; reflexivity. Qed.

(** C3, amended.  The resolver is called outside any handler, so when it
    fails for a candidate file the build raises and produces no manifest.
    A manifest is produced only when the dimensions of every candidate
    resolve, and then every candidate has its item, in order, with the
    dimensions the resolver gave. *)
Theorem resolver_failure_aborts_build
    Image photos_dir thumbs_dir max_edge skip_thumbs fs entries :
  iterdir fs photos_dir = Ok entries ->
  (forall photo e,
     photo ∈ entries ->
     is_candidate thumbs_dir fs photo = true ->
     get_image_dimensions Image fs photo = Raise e ->
     exists e',
       (build_gallery_items Image photos_dir thumbs_dir max_edge skip_thumbs fs).1
       = Raise e') /\
  (forall items,
     (build_gallery_items Image photos_dir thumbs_dir max_edge skip_thumbs fs).1
     = Ok items ->
     Forall2 (fun photo item =>
                get_image_dimensions Image fs photo = Ok (w item, h item))
       (filter (fun p => is_candidate thumbs_dir fs p) (sorted entries)) items).
Proof.
  intros Hiter.
  assert (forall items,
     (build_gallery_items Image photos_dir thumbs_dir max_edge skip_thumbs fs).1
     = Ok items ->
     Forall2 (fun photo item =>
                get_image_dimensions Image fs photo = Ok (w item, h item))
       (filter (fun p => is_candidate thumbs_dir fs p) (sorted entries)) items)
    as Hok.
  { intros items Hbuild.
    apply build_gallery_items_items in Hbuild as (entries' & Hiter' & Hitems).
    rewrite Hiter in Hiter'. injection Hiter' as <-.
    eapply Forall2_impl; [exact Hitems|]. by intros photo item [Hdims _]. }
  split; [|exact Hok].
  intros photo e Hin Hcand Hfail.
  destruct (build_gallery_items _ _ _ _ _ fs).1 as [items|e'] eqn:Hbuild;
    [|by eauto].
  specialize (Hok _ eq_refl).
  assert (photo ∈ filter (fun p => is_candidate thumbs_dir fs p) (sorted entries))
    as Hphoto.
  { apply list_elem_of_filter. split; [by apply Is_true_eq_left|].
    by rewrite sorted_perm. }
  destruct (Forall2_elem_of_l _ _ _ _ Hok Hphoto) as (item & _ & Hdims).
  congruence.
Qed.

Lemma resolver_failure_aborts_build_witness :
  exists e',
    (build_gallery_items None site_photos site_thumbs 1200 false broken_first).1
    = Raise e'.
Proof.
  destruct (resolver_failure_aborts_build None site_photos site_thumbs 1200 false
              broken_first _ eq_refl) as [Hfail _].
  apply (Hfail (site_photos ++ ["a.png"]) (ValueError "Not a PNG file")).
  - vm_compute. repeat constructor.
  - vm_compute; reflexivity.
  - vm_compute; reflexivity.
Defined.

(** C2, the claim as stated fails on both counts.  With a file that is
    not an image left at [thumbs/b.png], the item of [b.png] is serialized
    with [thumb] and without [thumbWidth] and [thumbHeight]; and a PNG
    whose header stores a width of 0 is in the manifest with [w] equal
    to 0. *)
Lemma thumb_without_size_and_zero_width :
  manifest <$> (build_gallery_items None site_photos site_thumbs 1200 false stale_thumb).1
  = Ok [ [("src", JStr "photos/a.jpg"); ("w", JInt 200); ("h", JInt 100);
          ("alt", JStr "a"); ("caption", JStr "a")];
         [("src", JStr "photos/b.png"); ("w", JInt 100); ("h", JInt 50);
          ("alt", JStr "b"); ("thumb", JStr "photos/thumbs/b.png");
          ("caption", JStr "b")];
         [("src", JStr "photos/z.png"); ("w", JInt 0); ("h", JInt 50);
          ("alt", JStr "z"); ("caption", JStr "z")] ] /\
  ~ (forall items d,
       (build_gallery_items None site_photos site_thumbs 1200 false stale_thumb).1
       = Ok items ->
       d ∈ manifest items ->
       (is_Some (dict_get "thumb" d) ->
        is_Some (dict_get "thumbWidth" d) /\ is_Some (dict_get "thumbHeight" d)) /\
       (forall n, dict_get "w" d = Some (JInt n) -> 0 < n)).
Proof.
  split; [vm_compute; reflexivity|].
  intros Hclaim.
  destruct (build_gallery_items None site_photos site_thumbs 1200 false stale_thumb).1
    as [items|e] eqn:Hbuild; vm_compute in Hbuild; [|discriminate].
  injection Hbuild as <-.
  destruct (Hclaim _ (to_dict
              {| src := "photos/b.png"; w := 100; h := 50; alt := "b";
                 thumb := Some "photos/thumbs/b.png"; thumbWidth := None;
                 thumbHeight := None; caption := Some "b" |}) eq_refl)
    as [Hthumb _].
  - right; left.
  - destruct Hthumb as [[v Hv] _]; [by eexists|]. vm_compute in Hv. discriminate.
Qed.

(** C2, amended.  In every item of a built manifest, serialized:
    [thumbWidth] and [thumbHeight] are present together or both absent,
    they are not 0 when present, and [thumb] is present whenever they
    are (the converse fails: a thumbnail kept from an earlier run whose
    size cannot be resolved gives [thumb] alone); [w] and [h] are always
    present and never negative, 0 being possible.  This is for entries
    with non-empty names and a collaborator, if any, that reports no
    negative size. *)
Theorem serialized_item_fields
    Image photos_dir thumbs_dir max_edge skip_thumbs fs items item :
  pillow_sizes_nonneg Image ->
  map_Forall (fun p _ => path_name p ≠ "") fs ->
  (build_gallery_items Image photos_dir thumbs_dir max_edge skip_thumbs fs).1 = Ok items ->
  item ∈ items ->
  let d := to_dict item in
  (is_Some (dict_get "thumbWidth" d) <-> is_Some (dict_get "thumbHeight" d)) /\
  (is_Some (dict_get "thumbWidth" d) -> is_Some (dict_get "thumb" d)) /\
  (forall n, dict_get "thumbWidth" d = Some (JInt n) \/
             dict_get "thumbHeight" d = Some (JInt n) -> n ≠ 0) /\
  dict_get "w" d = Some (JInt (w item)) /\
  dict_get "h" d = Some (JInt (h item)) /\
  0 <= w item /\ 0 <= h item.
Proof.
  intros Hpil Hnames Hbuild Hitem d. subst d.
  apply build_gallery_items_items in Hbuild as (entries & Hiter & Hitems).
  destruct (Forall2_elem_of_r _ _ _ _ Hitems Hitem)
    as (photo & Hphoto & Hdims & _ & _ & _ & _ & Hthumb).
  rewrite to_dict_thumbWidth, to_dict_thumbHeight, to_dict_thumb, to_dict_w, to_dict_h.
  destruct (get_image_dimensions_nonneg _ _ _ _ _ Hpil Hdims) as [Hw Hh].
  assert (path_name photo ≠ "") as Hname.
  { apply list_elem_of_filter in Hphoto as [_ Hin]. rewrite sorted_perm in Hin.
    apply iterdir_spec in Hiter as [_ Hiter].
    destruct (Hiter _ Hin) as [_ [n Hn]]. exact (Hnames _ _ Hn). }
  destruct (thumbWidth item) as [tw|] eqn:Htw, (thumbHeight item) as [th|] eqn:Hth;
    simpl; rewrite ?andb_false_r;
    try (repeat split; try done; try (by intros []); by intros n [|]).
  destruct Hthumb as (rel & Hrel & ->); [by eexists|].
  pose proof (as_posix_relative_nonempty _ _ _ _ Hname Hrel) as Hposix.
  simpl. rewrite (bool_decide_eq_false_2 _ Hposix). simpl.
  repeat case_bool_decide; simpl;
    repeat split; try done; try (by intros []); try (by eexists);
    intros n [[= <-]|[= <-]]; done.
Qed.

Lemma serialized_item_fields_witness :
  let item := {| src := "photos/b.png"; w := 100; h := 50; alt := "b";
                 thumb := Some "photos/thumbs/b.png"; thumbWidth := Some 100;
                 thumbHeight := Some 50; caption := Some "b" |} in
  let d := to_dict item in
  (is_Some (dict_get "thumbWidth" d) <-> is_Some (dict_get "thumbHeight" d)) /\
  (is_Some (dict_get "thumbWidth" d) -> is_Some (dict_get "thumb" d)) /\
  (forall n, dict_get "thumbWidth" d = Some (JInt n) \/
             dict_get "thumbHeight" d = Some (JInt n) -> n ≠ 0) /\
  dict_get "w" d = Some (JInt (w item)) /\
  dict_get "h" d = Some (JInt (h item)) /\
  0 <= w item /\ 0 <= h item.
Proof.
  eapply (serialized_item_fields None site_photos site_thumbs 1200 false kept_thumb).
  - intros pil ? ? ? ? Hpil. discriminate Hpil.
  - apply (bool_decide_unpack _). vm_compute. exact I.
  - vm_compute; reflexivity.
  - right; left.
Defined.

(** C7.  With the collaborator absent ([Image] is [None]), the resolver
    returns, for every path and every state of the files, exactly what
    the manual parser [read_image_size] returns, result or exception; and
    the whole build then runs on the manual parser alone: each item of
    the manifest carries the dimensions [read_image_size] gives for its
    file. *)
Theorem get_image_dimensions_without_pillow :
  (forall fs path, get_image_dimensions None fs path = read_image_size fs path) /\
  (forall photos_dir thumbs_dir max_edge skip_thumbs fs items,
     (build_gallery_items None photos_dir thumbs_dir max_edge skip_thumbs fs).1
     = Ok items ->
     exists entries,
       iterdir fs photos_dir = Ok entries /\
       Forall2 (fun photo item => read_image_size fs photo = Ok (w item, h item))
         (filter (fun p => is_candidate thumbs_dir fs p) (sorted entries)) items).
Proof.
  split; [reflexivity|].
  intros photos_dir thumbs_dir max_edge skip_thumbs fs items Hbuild.
  apply build_gallery_items_items in Hbuild as (entries & Hiter & Hitems).
  exists entries. split; [exact Hiter|].
  eapply Forall2_impl; [exact Hitems|].
  intros photo item [Hdims _]. exact Hdims.
Qed.

Lemma get_image_dimensions_without_pillow_witness :
  get_image_dimensions None two_photos (site_photos ++ ["b.png"])
  = read_image_size two_photos (site_photos ++ ["b.png"]) /\
  exists entries,
    iterdir two_photos site_photos = Ok entries /\
    Forall2 (fun photo item => read_image_size two_photos photo = Ok (w item, h item))
      (filter (fun p => is_candidate site_thumbs two_photos p) (sorted entries))
      [ {| src := "photos/a.jpg"; w := 200; h := 100; alt := "a";
           thumb := None; thumbWidth := None; thumbHeight := None;
           caption := Some "a" |};
        {| src := "photos/b.png"; w := 100; h := 50; alt := "b";
           thumb := None; thumbWidth := None; thumbHeight := None;
           caption := Some "b" |} ].
Proof.
  destruct get_image_dimensions_without_pillow as [Hresolver Hbuild].
  split; [apply Hresolver|].
  apply (Hbuild site_photos site_thumbs 1200 false two_photos).
  vm_compute; reflexivity.
Defined.

(** * Further properties of the parsers *)

(** ** Ranges of the decoded integers *)

Lemma int_from_bytes_big_bound bs :
  int_from_bytes_big bs < 256 ^ Z.of_nat (length bs).
Proof.
  induction bs as [|b bs IH] using rev_ind; [reflexivity|].
  rewrite int_from_bytes_big_snoc, length_app, Nat2Z.inj_add, Z.pow_add_r by lia.
  pose proof (byte_val_range b). simpl length. change (256 ^ Z.of_nat 1) with 256. lia.
Qed.

Lemma int_from_bytes_little_bound bs :
  int_from_bytes_little bs < 256 ^ Z.of_nat (length bs).
Proof.
  induction bs as [|b bs IH]; [reflexivity|].
  simpl int_from_bytes_little. simpl length.
  rewrite Nat2Z.inj_succ, Z.pow_succ_r by lia.
  pose proof (byte_val_range b). lia.
Qed.

Lemma length_slice_le data lo hi : (length (slice data lo hi) <= hi - lo)%nat.
Proof. unfold slice. rewrite length_take. lia. Qed.

Lemma int_from_bytes_big_slice_bound data lo hi :
  0 <= int_from_bytes_big (slice data lo hi) < 256 ^ Z.of_nat (hi - lo).
Proof.
  split; [apply int_from_bytes_big_nonneg|].
  eapply Z.lt_le_trans; [apply int_from_bytes_big_bound|].
  apply Z.pow_le_mono_r; [lia|]. pose proof (length_slice_le data lo hi). lia.
Qed.

Lemma int_from_bytes_little_slice_bound data lo hi :
  0 <= int_from_bytes_little (slice data lo hi) < 256 ^ Z.of_nat (hi - lo).
Proof.
  split; [apply int_from_bytes_little_nonneg|].
  eapply Z.lt_le_trans; [apply int_from_bytes_little_bound|].
  apply Z.pow_le_mono_r; [lia|]. pose proof (length_slice_le data lo hi). lia.
Qed.

Lemma int_from_bytes_big_take_bound data n :
  0 <= int_from_bytes_big (take n data) < 256 ^ Z.of_nat n.
Proof.
  split; [apply int_from_bytes_big_nonneg|].
  eapply Z.lt_le_trans; [apply int_from_bytes_big_bound|].
  apply Z.pow_le_mono_r; [lia|]. rewrite length_take. lia.
Qed.

Lemma lor_byte_shift_bound a b :
  0 <= a < 256 -> 0 <= b < 256 -> 0 <= Z.lor a (Z.shiftl b 8) < 65536.
Proof.
  intros Ha Hb. rewrite Z.shiftl_mul_pow2 by lia. change (2 ^ 8) with 256.
  assert (0 <= Z.lor a (b * 256)) as Hnn by (apply Z.lor_nonneg; lia).
  split; [exact Hnn|].
  destruct (Z.eq_dec (Z.lor a (b * 256)) 0) as [->|Hne]; [lia|].
  change 65536 with (2 ^ 16). apply Z.log2_lt_pow2; [lia|].
  rewrite Z.log2_lor by lia. apply Z.max_lub_lt.
  - destruct (Z.eq_dec a 0) as [->|]; [reflexivity|].
    apply Z.log2_lt_pow2; [lia|]. change (2 ^ 16) with 65536. lia.
  - destruct (Z.eq_dec b 0) as [->|]; [reflexivity|].
    apply Z.log2_lt_pow2; [lia|]. change (2 ^ 16) with 65536. lia.
Qed.

Lemma land_3fff_bound a : 0 <= Z.land a 0x3FFF < 16384.
Proof.
  change 0x3FFF with (Z.ones 14). rewrite Z.land_ones by lia.
  change (2 ^ 14) with 16384. apply Z.mod_pos_bound. lia.
Qed.

Lemma jpeg_body_range fp width height :
  jpeg_body fp = Return (width, height) ->
  0 <= width < 65536 /\ 0 <= height < 65536.
Proof.
  unfold jpeg_body, fp_read.
  destruct (take 1 fp) as [|b ?]; [discriminate|].
  destruct (negb _); [discriminate|].
  destruct (read_marker _) as [[|m ?] fp1]; [discriminate|].
  destruct (bool_decide (m ∈ _)).
  - destruct (negb _); [discriminate|].
    intros [= <- <-]. split; apply (int_from_bytes_big_take_bound _ 2).
  - destruct (negb _); discriminate.
Qed.

Lemma webp_body_range fp width height :
  webp_body fp = Return (width, height) ->
  0 <= width <= 16777216 /\ 0 <= height <= 16777216.
Proof.
  unfold webp_body, fp_read.
  destruct (bool_decide (_ < 8)%nat); [discriminate|].
  destruct (_ && _).
  { intros [= <- <-].
    split; match goal with |- _ <= 1 + int_from_bytes_little (slice ?d ?a ?b) <= _ =>
      pose proof (int_from_bytes_little_slice_bound d a b) as Hb;
      simpl in Hb; lia end. }
  destruct (_ && _).
  { intros [= <- <-].
    split; match goal with |- _ <= Z.lor (byte_at ?d ?i) (Z.shiftl (byte_at ?d ?j) 8) <= _ =>
      pose proof (lor_byte_shift_bound (byte_at d i) (byte_at d j)
                    (byte_val_range _) (byte_val_range _)); lia end. }
  destruct (_ && _); [|discriminate].
  intros [= <- <-].
  split; match goal with |- _ <= Z.land ?a _ + 1 <= _ =>
    pose proof (land_3fff_bound a); lia end.
Qed.

(** X1.  A [.jpg]/[.jpeg] file is rejected with 'Not a JPEG file' exactly
    when its first two bytes are not [FF D8]; this covers the empty file
    and the file of one byte. *)
Theorem jpeg_rejected_iff_no_soi fs path data :
  lower (path_suffix path) ∈ [".jpg"; ".jpeg"] ->
  fs !! path = Some (File data) ->
  read_image_size fs path = Raise (ValueError "Not a JPEG file") <->
  take 2 data ≠ JPEG_SOI.
Proof.
  intros Hsuffix Hfile. rewrite (read_image_size_jpeg _ _ _ Hsuffix Hfile).
  unfold jpeg_size, fp_read. case_bool_decide as Hsoi; simpl.
  - destruct (while_true _ _ _); split; (discriminate || done).
  - split; done.
Qed.

Lemma jpeg_rejected_iff_no_soi_witness :
  read_image_size (one_photo "e.jpg" [xff]) (site_photos ++ ["e.jpg"])
  = Raise (ValueError "Not a JPEG file").
Proof.
  apply (jpeg_rejected_iff_no_soi (one_photo "e.jpg" [xff])
           (site_photos ++ ["e.jpg"]) [xff]).
  - vm_compute. repeat constructor.
  - vm_compute; reflexivity.
  - discriminate.
Defined.

(** X2.  For a [.png] file the signature alone decides: without the eight
    signature bytes the parser raises 'Not a PNG file'; with them it
    returns a pair, whatever follows, and both numbers are below 2^32. *)
Theorem png_signature_decides fs path data :
  lower (path_suffix path) = ".png" ->
  fs !! path = Some (File data) ->
  (take 8 data ≠ PNG_SIGNATURE ->
   read_image_size fs path = Raise (ValueError "Not a PNG file")) /\
  (take 8 data = PNG_SIGNATURE ->
   exists width height,
     read_image_size fs path = Ok (width, height) /\
     0 <= width < 4294967296 /\ 0 <= height < 4294967296).
Proof.
  intros Hsuffix Hfile. rewrite (read_image_size_png _ _ _ Hsuffix Hfile). split.
  - intros Hsig. unfold png_size, fp_read. rewrite slice_take by lia.
    change (slice data 0 8) with (take 8 data).
    by rewrite bool_decide_eq_false_2.
  - intros Hsig. rewrite (png_size_never_truncated _ Hsig).
    eexists _, _. split; [reflexivity|].
    split; [apply (int_from_bytes_big_slice_bound data 16 20)
           |apply (int_from_bytes_big_slice_bound data 20 24)].
Qed.

Lemma png_signature_decides_witness :
  (take 8 [x00] ≠ PNG_SIGNATURE ->
   read_image_size (one_photo "n.png" [x00]) (site_photos ++ ["n.png"])
   = Raise (ValueError "Not a PNG file")) /\
  (take 8 [x00] = PNG_SIGNATURE ->
   exists width height,
     read_image_size (one_photo "n.png" [x00]) (site_photos ++ ["n.png"])
     = Ok (width, height) /\
     0 <= width < 4294967296 /\ 0 <= height < 4294967296).
Proof.
  apply (png_signature_decides (one_photo "n.png" [x00]) (site_photos ++ ["n.png"]) [x00]).
  - vm_compute; reflexivity.
  - vm_compute; reflexivity.
Defined.

(** X3.  Whatever a [.jpg]/[.jpeg] file holds, dimensions returned for it
    are two-byte values: both lie in 0..65535. *)
Theorem jpeg_dimensions_range fs path width height :
  lower (path_suffix path) ∈ [".jpg"; ".jpeg"] ->
  read_image_size fs path = Ok (width, height) ->
  0 <= width < 65536 /\ 0 <= height < 65536.
Proof.
  intros Hsuffix. unfold read_image_size, open_rb.
  rewrite bool_decide_eq_true_2 by exact Hsuffix.
  destruct (fs !! path) as [[data|]|]; [|discriminate|discriminate]. simpl.
  unfold jpeg_size, fp_read. destruct (negb _); [discriminate|].
  destruct (while_true _ _ _) as [dims|] eqn:Hw; [|discriminate].
  intros [= ->]. apply while_true_Some in Hw as (fp' & _ & Hret).
  by apply jpeg_body_range in Hret.
Qed.

Lemma jpeg_dimensions_range_witness :
  0 <= 200 < 65536 /\ 0 <= 100 < 65536.
Proof.
  apply (jpeg_dimensions_range (one_photo "a.jpg" jpg_200x100)
           (site_photos ++ ["a.jpg"]) 200 100).
  - vm_compute. repeat constructor.
  - vm_compute; reflexivity.
Defined.

(** X4.  Whatever a [.webp] file holds, dimensions returned for it are
    never negative and never above 2^24. *)
Theorem webp_dimensions_range fs path width height :
  lower (path_suffix path) = ".webp" ->
  read_image_size fs path = Ok (width, height) ->
  0 <= width <= 16777216 /\ 0 <= height <= 16777216.
Proof.
  intros Hsuffix. unfold read_image_size, open_rb. rewrite Hsuffix. simpl.
  destruct (fs !! path) as [[data|]|]; [|discriminate|discriminate]. simpl.
  unfold webp_size, fp_read. destruct (_ || _); [discriminate|].
  destruct (while_true _ _ _) as [dims|] eqn:Hw; [|discriminate].
  intros [= ->]. apply while_true_Some in Hw as (fp' & _ & Hret).
  by apply webp_body_range in Hret.
Qed.

Lemma webp_dimensions_range_witness :
  0 <= 16484 <= 16777216 /\ 0 <= 32818 <= 16777216.
Proof.
  apply (webp_dimensions_range (one_photo "s.webp" webp_vp8_scaled)
           (site_photos ++ ["s.webp"]) 16484 32818).
  - vm_compute; reflexivity.
  - vm_compute; reflexivity.
Defined.

(** ** JPEG streams made of segments *)

Lemma loop_reaches_trans {R} (body : list byte -> control R) fp1 fp2 fp3 :
  loop_reaches body fp1 fp2 -> loop_reaches body fp2 fp3 -> loop_reaches body fp1 fp3.
Proof.
  induction 1 as [|fp fp1 fp2 Hstep _ IH]; [done|].
  intros H. econstructor; [exact Hstep|]. by apply IH.
Qed.

(** A marker segment as it lies in a file: bytes other than [FF] that
    precede it, the [FF] that opens it, further [FF] padding, the marker
    code, the two length bytes and the payload. *)
Record jpeg_segment := {
  seg_junk : list byte;
  seg_pad : list byte;
  seg_marker : byte;
  seg_len_hi : byte;
  seg_len_lo : byte;
  seg_payload : list byte;
}.

Definition segment_bytes (s : jpeg_segment) : list byte :=
  seg_junk s ++
  (xff :: seg_pad s ++ (seg_marker s :: seg_len_hi s :: seg_len_lo s :: seg_payload s)).

(** The segments the marker loop steps over: not a start of frame, and
    with as many payload bytes as the length field announces beyond
    itself (none when the field is below 2). *)
Definition skipped_segment (s : jpeg_segment) : Prop :=
  Forall (fun b => b ≠ xff) (seg_junk s) /\
  Forall (eq xff) (seg_pad s) /\
  (seg_marker s ∉ JPEG_START_OF_FRAME_MARKERS) /\
  seg_marker s ≠ xff /\
  length (seg_payload s) =
    Z.to_nat (Z.max (int_from_bytes_big [seg_len_hi s; seg_len_lo s] - 2) 0).

Lemma jpeg_body_junk b fp : b ≠ xff -> jpeg_body (b :: fp) = Continue fp.
Proof.
  intros Hb. unfold jpeg_body, fp_read. simpl. rewrite drop_0.
  by rewrite bool_decide_eq_false_2.
Qed.

Lemma jpeg_reaches_junk junk fp :
  Forall (fun b => b ≠ xff) junk -> loop_reaches jpeg_body (junk ++ fp) fp.
Proof.
  induction 1 as [|b junk Hb _ IH]; simpl; [constructor|].
  econstructor; [by apply jpeg_body_junk|exact IH].
Qed.

Lemma jpeg_reaches_segment s fp :
  skipped_segment s -> loop_reaches jpeg_body (segment_bytes s ++ fp) fp.
Proof.
  intros (Hjunk & Hpad & Hsof & Hff & Hlen). unfold segment_bytes.
  rewrite <- app_assoc.
  eapply loop_reaches_trans; [by apply jpeg_reaches_junk|].
  econstructor; [|constructor].
  simpl. rewrite <- app_assoc. simpl.
  rewrite (jpeg_body_skip _ _ _ _ _ Hpad Hsof Hff), <- Hlen.
  by rewrite drop_app_length.
Qed.

Lemma jpeg_reaches_segments segs fp :
  Forall skipped_segment segs ->
  loop_reaches jpeg_body (concat (segment_bytes <$> segs) ++ fp) fp.
Proof.
  induction 1 as [|s segs Hs _ IH]; simpl; [constructor|].
  rewrite <- app_assoc.
  eapply loop_reaches_trans; [by apply jpeg_reaches_segment|exact IH].
Qed.

Lemma jpeg_size_soi fp :
  jpeg_size (JPEG_SOI ++ fp) =
  match while_true jpeg_body jpeg_body_consumes fp with
  | Some dims => Ok dims
  | None => Raise (ValueError "Could not determine JPEG dimensions")
  end.
Proof. reflexivity. Qed.

(** X5.  Segments that are not a start of frame, each possibly preceded
    by stray bytes and [FF] padding, do not change what the JPEG branch
    returns: with them or without them between the SOI and the rest of the
    stream, the result is the same.  A length field of 0 or 1 skips no
    payload. *)
Theorem jpeg_segments_skipped segs rest :
  Forall skipped_segment segs ->
  jpeg_size (JPEG_SOI ++ concat (segment_bytes <$> segs) ++ rest)
  = jpeg_size (JPEG_SOI ++ rest).
Proof.
  intros Hsegs. rewrite !jpeg_size_soi.
  by rewrite (while_true_reaches _ _ _ _ (jpeg_reaches_segments _ rest Hsegs)).
Qed.

(** An APP0 segment of declared length 4 with two payload bytes, and a
    segment whose length field is 1, which has no payload. *)
Definition sample_segments : list jpeg_segment :=
  [ {| seg_junk := [x00]; seg_pad := [xff]; seg_marker := xe0;
       seg_len_hi := x00; seg_len_lo := x04; seg_payload := [x01; x02] |};
    {| seg_junk := []; seg_pad := []; seg_marker := xdb;
       seg_len_hi := x00; seg_len_lo := x01; seg_payload := [] |} ].

Lemma sample_segments_skipped : Forall skipped_segment sample_segments.
Proof.
  repeat constructor; simpl; try discriminate;
    apply (bool_decide_unpack _); vm_compute; exact I.
Defined.

Lemma jpeg_segments_skipped_witness :
  jpeg_size (JPEG_SOI ++ concat (segment_bytes <$> sample_segments) ++ drop 8 jpg_200x100)
  = jpeg_size (JPEG_SOI ++ drop 8 jpg_200x100).
Proof.
  apply (jpeg_segments_skipped sample_segments (drop 8 jpg_200x100)).
  exact sample_segments_skipped.
Defined.

(** X6.  A JPEG file made of the SOI, any number of segments that are not
    a start of frame, and then a start-of-frame segment yields the width
    and height stored in that segment, whatever follows it. *)
Theorem jpeg_dimensions_after_segments fs path segs pad m l1 l2 p h1 h2 w1 w2 rest :
  lower (path_suffix path) ∈ [".jpg"; ".jpeg"] ->
  fs !! path = Some (File (JPEG_SOI ++ concat (segment_bytes <$> segs) ++
                           xff :: pad ++ m :: l1 :: l2 :: p :: h1 :: h2 :: w1 :: w2 :: rest)) ->
  Forall skipped_segment segs ->
  Forall (eq xff) pad ->
  m ∈ JPEG_START_OF_FRAME_MARKERS ->
  read_image_size fs path =
  Ok (256 * byte_val w1 + byte_val w2, 256 * byte_val h1 + byte_val h2).
Proof.
  intros Hsuffix Hfile Hsegs Hpad Hm.
  rewrite (read_image_size_jpeg _ _ _ Hsuffix Hfile).
  rewrite (jpeg_size_at_sof _ pad m l1 l2 (p :: h1 :: h2 :: w1 :: w2 :: rest));
    [|reflexivity|by apply jpeg_reaches_segments|exact Hpad|exact Hm].
  change (slice (p :: h1 :: h2 :: w1 :: w2 :: rest) 3 5) with [w1; w2].
  change (slice (p :: h1 :: h2 :: w1 :: w2 :: rest) 1 3) with [h1; h2].
  by rewrite !int_from_bytes_big_2.
Qed.

Definition jpg_with_segments : list byte :=
  JPEG_SOI ++ concat (segment_bytes <$> sample_segments) ++
  [xff; xc2; x00; x11; x08; x01; x2c; x02; x58; x03].

Lemma jpeg_dimensions_after_segments_witness :
  read_image_size (one_photo "p.jpeg" jpg_with_segments) (site_photos ++ ["p.jpeg"])
  = Ok (600, 300).
Proof.
  apply (jpeg_dimensions_after_segments (one_photo "p.jpeg" jpg_with_segments)
           (site_photos ++ ["p.jpeg"]) sample_segments
           [] xc2 x00 x11 x08 x01 x2c x02 x58 [x03]).
  - vm_compute. repeat constructor.
  - vm_compute; reflexivity.
  - exact sample_segments_skipped.
  - constructor.
  - vm_compute. repeat constructor.
Defined.

(** X7.  A JPEG file made of the SOI and segments none of which is a
    start of frame, followed at most by bytes other than [FF], is refused
    with 'Could not determine JPEG dimensions'. *)
Theorem jpeg_without_sof_not_found fs path segs junk :
  lower (path_suffix path) ∈ [".jpg"; ".jpeg"] ->
  fs !! path = Some (File (JPEG_SOI ++ concat (segment_bytes <$> segs) ++ junk)) ->
  Forall skipped_segment segs ->
  Forall (fun b => b ≠ xff) junk ->
  read_image_size fs path = Raise (ValueError "Could not determine JPEG dimensions").
Proof.
  intros Hsuffix Hfile Hsegs Hjunk.
  rewrite (read_image_size_jpeg _ _ _ Hsuffix Hfile), jpeg_size_soi.
  rewrite (while_true_reaches _ _ _ _ (jpeg_reaches_segments _ junk Hsegs)).
  rewrite <- (app_nil_r junk).
  rewrite (while_true_reaches _ _ _ _ (jpeg_reaches_junk _ [] Hjunk)).
  by rewrite while_true_step.
Qed.

Lemma jpeg_without_sof_not_found_witness :
  read_image_size
    (one_photo "q.jpg" (JPEG_SOI ++ concat (segment_bytes <$> sample_segments) ++ [xd9]))
    (site_photos ++ ["q.jpg"])
  = Raise (ValueError "Could not determine JPEG dimensions").
Proof.
  apply (jpeg_without_sof_not_found _ _ sample_segments [xd9]).
  - vm_compute. repeat constructor.
  - vm_compute; reflexivity.
  - exact sample_segments_skipped.
  - repeat constructor. discriminate.
Defined.

(** ** WebP files made of chunks *)

(** A chunk as it lies in a file: four bytes of tag, four bytes of
    little-endian size, and the payload. *)
Record webp_chunk := {
  chunk_tag : list byte;
  chunk_size_le : list byte;
  chunk_payload : list byte;
}.

Definition chunk_bytes (c : webp_chunk) : list byte :=
  chunk_tag c ++ chunk_size_le c ++ chunk_payload c.

(** The number of payload bytes the loop reads for a declared size. *)
Definition padded_size (size_le : list byte) : nat :=
  let n := int_from_bytes_little size_le in Z.to_nat (n + n mod 2).

(** The chunks the loop steps over: whole chunks (payload padded to an
    even length) whose tag is not one of the three, or is one of them with
    a payload too short to hold the dimensions. *)
Definition skipped_chunk (c : webp_chunk) : Prop :=
  length (chunk_tag c) = 4%nat /\
  length (chunk_size_le c) = 4%nat /\
  length (chunk_payload c) = padded_size (chunk_size_le c) /\
  (chunk_tag c = VP8X \/ chunk_tag c = VP8_ -> (length (chunk_payload c) < 10)%nat) /\
  (chunk_tag c = VP8L -> (length (chunk_payload c) < 5)%nat).

Lemma webp_reaches_chunk c fp :
  skipped_chunk c -> loop_reaches webp_body (chunk_bytes c ++ fp) fp.
Proof.
  destruct c as [tag size payload]. unfold skipped_chunk, chunk_bytes; simpl.
  intros (Htag & Hsize & Hlen & Hlossy & Hlossless).
  destruct tag as [|t1 [|t2 [|t3 [|t4 [|]]]]]; try discriminate.
  destruct size as [|s1 [|s2 [|s3 [|s4 [|]]]]]; try discriminate.
  econstructor; [|constructor]. simpl.
  rewrite webp_body_chunk. unfold padded_size in Hlen. rewrite <- Hlen.
  rewrite take_app_length, drop_app_length.
  rewrite !bool_decide_eq_false_2; [reflexivity|..]; intros [Ht Hl]; lia || auto.
  - apply Hlossless in Ht. lia.
  - assert (length payload < 10)%nat by auto. lia.
  - assert (length payload < 10)%nat by auto. lia.
Qed.

Lemma webp_reaches_chunks chunks fp :
  Forall skipped_chunk chunks ->
  loop_reaches webp_body (concat (chunk_bytes <$> chunks) ++ fp) fp.
Proof.
  induction 1 as [|c chunks Hc _ IH]; simpl; [constructor|].
  rewrite <- app_assoc.
  eapply loop_reaches_trans; [by apply webp_reaches_chunk|exact IH].
Qed.

(** The twelve bytes of a RIFF/WEBP container, the file size field being
    any four bytes. *)
Definition webp_container (z1 z2 z3 z4 : byte) : list byte :=
  RIFF ++ [z1; z2; z3; z4] ++ WEBP.

Lemma webp_size_after_container z1 z2 z3 z4 fp :
  webp_size (webp_container z1 z2 z3 z4 ++ fp) =
  match while_true webp_body webp_body_consumes fp with
  | Some dims => Ok dims
  | None => Raise (ValueError "Could not determine WebP dimensions")
  end.
Proof. reflexivity. Qed.

(** X8.  Whole chunks that carry no dimensions (unknown tag, or a known
    tag with too short a payload) do not change what the WebP branch
    returns: with them or without them between the container header and
    the rest of the file, the result is the same. *)
Theorem webp_chunks_skipped z1 z2 z3 z4 chunks rest :
  Forall skipped_chunk chunks ->
  webp_size (webp_container z1 z2 z3 z4 ++ concat (chunk_bytes <$> chunks) ++ rest)
  = webp_size (webp_container z1 z2 z3 z4 ++ rest).
Proof.
  intros Hchunks. rewrite !webp_size_after_container.
  by rewrite (while_true_reaches _ _ _ _ (webp_reaches_chunks _ rest Hchunks)).
Qed.

(** An 'EXIF' chunk of 3 bytes padded to 4, an empty 'ICCP' chunk, and a
    'VP8L' chunk too short to be decoded. *)
Definition sample_chunks : list webp_chunk :=
  [ {| chunk_tag := [x45; x58; x49; x46]; chunk_size_le := [x03; x00; x00; x00];
       chunk_payload := [x01; x02; x03; x00] |};
    {| chunk_tag := [x49; x43; x43; x50]; chunk_size_le := [x00; x00; x00; x00];
       chunk_payload := [] |};
    {| chunk_tag := VP8L; chunk_size_le := [x04; x00; x00; x00];
       chunk_payload := [x2f; x63; x00; x13] |} ].

Lemma sample_chunks_skipped : Forall skipped_chunk sample_chunks.
Proof.
  repeat constructor; simpl; try discriminate; try lia;
    intros [|]; discriminate.
Defined.

Lemma webp_chunks_skipped_witness :
  webp_size (webp_container x00 x00 x00 x00 ++
             concat (chunk_bytes <$> sample_chunks) ++ drop 12 webp_vp8_scaled)
  = webp_size (webp_container x00 x00 x00 x00 ++ drop 12 webp_vp8_scaled).
Proof.
  apply (webp_chunks_skipped x00 x00 x00 x00 sample_chunks (drop 12 webp_vp8_scaled)).
  exact sample_chunks_skipped.
Defined.

(** X9.  A WebP file whose first chunk that carries dimensions is a
    'VP8X' chunk of declared size 10 or more, with ten payload bytes in
    the file, yields 1 plus the 24-bit little-endian number in payload
    bytes 4-6 as width and 1 plus the one in bytes 7-9 as height. *)
Theorem webp_vp8x_dimensions fs path z1 z2 z3 z4 chunks s1 s2 s3 s4
    b0 b1 b2 b3 b4 b5 b6 b7 b8 b9 rest :
  lower (path_suffix path) = ".webp" ->
  fs !! path = Some (File (webp_container z1 z2 z3 z4 ++
                           concat (chunk_bytes <$> chunks) ++
                           VP8X ++ [s1; s2; s3; s4] ++
                           b0 :: b1 :: b2 :: b3 :: b4 :: b5 :: b6 :: b7 :: b8 :: b9 :: rest)) ->
  Forall skipped_chunk chunks ->
  (10 <= padded_size [s1; s2; s3; s4])%nat ->
  read_image_size fs path =
  Ok (1 + (byte_val b4 + 256 * byte_val b5 + 65536 * byte_val b6),
      1 + (byte_val b7 + 256 * byte_val b8 + 65536 * byte_val b9)).
Proof.
  intros Hsuffix Hfile Hchunks Hsize.
  rewrite (read_image_size_webp _ _ _ Hsuffix Hfile), webp_size_after_container.
  rewrite (while_true_reaches _ _ _ _ (webp_reaches_chunks _ _ Hchunks)).
  rewrite while_true_step. simpl app. rewrite webp_body_chunk.
  fold (padded_size [s1; s2; s3; s4]).
  rewrite !slice_take by lia.
  rewrite bool_decide_eq_true_2 by (rewrite length_take; simpl; split; [done|lia]).
  unfold slice, int_from_bytes_little. simpl. f_equal. f_equal; lia.
Qed.

Lemma webp_vp8x_dimensions_witness :
  read_image_size
    (one_photo "x.webp"
       (webp_container x00 x00 x00 x00 ++ concat (chunk_bytes <$> sample_chunks) ++
        VP8X ++ [x0a; x00; x00; x00] ++
        [x00; x00; x00; x00; xc7; x00; x00; x63; x00; x00]))
    (site_photos ++ ["x.webp"])
  = Ok (1 + (byte_val xc7 + 256 * byte_val x00 + 65536 * byte_val x00),
        1 + (byte_val x63 + 256 * byte_val x00 + 65536 * byte_val x00)).
Proof.
  apply (webp_vp8x_dimensions _ _ x00 x00 x00 x00 sample_chunks x0a x00 x00 x00
           x00 x00 x00 x00 xc7 x00 x00 x63 x00 x00 []).
  - vm_compute; reflexivity.
  - vm_compute; reflexivity.
  - exact sample_chunks_skipped.
  - vm_compute. lia.
Defined.

(** X10.  A WebP file whose first chunk that carries dimensions is a
    'VP8L' chunk of declared size 5 or more, with five payload bytes in
    the file, yields, for the 32-bit little-endian number [bits] in its
    first four bytes, width [bits mod 2^14 + 1] and height
    [(bits / 2^14) mod 2^14 + 1]; both lie in 1..16384. *)
Theorem webp_vp8l_dimensions fs path z1 z2 z3 z4 chunks s1 s2 s3 s4
    b0 b1 b2 b3 b4 rest :
  lower (path_suffix path) = ".webp" ->
  fs !! path = Some (File (webp_container z1 z2 z3 z4 ++
                           concat (chunk_bytes <$> chunks) ++
                           VP8L ++ [s1; s2; s3; s4] ++
                           b0 :: b1 :: b2 :: b3 :: b4 :: rest)) ->
  Forall skipped_chunk chunks ->
  (5 <= padded_size [s1; s2; s3; s4])%nat ->
  let bits := byte_val b0 + 256 * byte_val b1 + 65536 * byte_val b2
              + 16777216 * byte_val b3 in
  read_image_size fs path = Ok (bits mod 16384 + 1, (bits / 16384) mod 16384 + 1) /\
  1 <= bits mod 16384 + 1 <= 16384 /\
  1 <= (bits / 16384) mod 16384 + 1 <= 16384.
Proof.
  intros Hsuffix Hfile Hchunks Hsize bits.
  split; [|split; match goal with |- _ <= ?a mod 16384 + 1 <= _ =>
             pose proof (Z.mod_pos_bound a 16384); lia end].
  rewrite (read_image_size_webp _ _ _ Hsuffix Hfile), webp_size_after_container.
  rewrite (while_true_reaches _ _ _ _ (webp_reaches_chunks _ _ Hchunks)).
  rewrite while_true_step. simpl app. rewrite webp_body_chunk.
  fold (padded_size [s1; s2; s3; s4]).
  rewrite bool_decide_eq_false_2 by (intros [? _]; discriminate).
  rewrite bool_decide_eq_false_2 by (intros [? _]; discriminate).
  rewrite bool_decide_eq_true_2 by (rewrite length_take; simpl; split; [done|lia]).
  cbv zeta. rewrite (slice_take _ _ 0 4) by lia.
  assert (int_from_bytes_little (slice (b0 :: b1 :: b2 :: b3 :: b4 :: rest) 0 4) = bits)
    as -> by (unfold slice, int_from_bytes_little, bits; simpl; lia).
  change 16383 with (Z.ones 14).
  rewrite !Z.land_ones, Z.shiftr_div_pow2 by lia. reflexivity.
Qed.

Lemma webp_vp8l_dimensions_witness :
  let bits := byte_val x63 + 256 * byte_val x00 + 65536 * byte_val x13
              + 16777216 * byte_val x00 in
  read_image_size
    (one_photo "l.webp"
       (webp_container x00 x00 x00 x00 ++ concat (chunk_bytes <$> sample_chunks) ++
        VP8L ++ [x05; x00; x00; x00] ++ [x63; x00; x13; x00; x00; x00]))
    (site_photos ++ ["l.webp"])
  = Ok (bits mod 16384 + 1, (bits / 16384) mod 16384 + 1) /\
  1 <= bits mod 16384 + 1 <= 16384 /\
  1 <= (bits / 16384) mod 16384 + 1 <= 16384.
Proof.
  apply (webp_vp8l_dimensions _ _ x00 x00 x00 x00 sample_chunks x05 x00 x00 x00
           x63 x00 x13 x00 x00 [x00]).
  - vm_compute; reflexivity.
  - vm_compute; reflexivity.
  - exact sample_chunks_skipped.
  - vm_compute. lia.
Defined.

(** X11.  A WebP file made of the container header and whole chunks none
    of which carries dimensions, followed by fewer than eight bytes, is
    refused with 'Could not determine WebP dimensions'. *)
Theorem webp_without_dimensions_not_found fs path z1 z2 z3 z4 chunks tail :
  lower (path_suffix path) = ".webp" ->
  fs !! path = Some (File (webp_container z1 z2 z3 z4 ++
                           concat (chunk_bytes <$> chunks) ++ tail)) ->
  Forall skipped_chunk chunks ->
  (length tail < 8)%nat ->
  read_image_size fs path = Raise (ValueError "Could not determine WebP dimensions").
Proof.
  intros Hsuffix Hfile Hchunks Htail.
  rewrite (read_image_size_webp _ _ _ Hsuffix Hfile), webp_size_after_container.
  rewrite (while_true_reaches _ _ _ _ (webp_reaches_chunks _ _ Hchunks)).
  rewrite while_true_step. unfold webp_body, fp_read.
  rewrite bool_decide_eq_true_2 by (rewrite length_take; lia). reflexivity.
Qed.

Lemma webp_without_dimensions_not_found_witness :
  read_image_size
    (one_photo "n.webp"
       (webp_container x00 x00 x00 x00 ++ concat (chunk_bytes <$> sample_chunks) ++ [x56]))
    (site_photos ++ ["n.webp"])
  = Raise (ValueError "Could not determine WebP dimensions").
Proof.
  apply (webp_without_dimensions_not_found _ _ x00 x00 x00 x00 sample_chunks [x56]).
  - vm_compute; reflexivity.
  - vm_compute; reflexivity.
  - exact sample_chunks_skipped.
  - simpl; lia.
Defined.

(** ** The exceptions of [read_image_size] *)

Lemma jpeg_size_errors data e :
  jpeg_size data = Raise e ->
  e = ValueError "Not a JPEG file" \/
  e = ValueError "Could not determine JPEG dimensions".
Proof.
  unfold jpeg_size, fp_read.
  destruct (negb _); [intros [= <-]; by left|].
  destruct (while_true _ _ _); [discriminate|intros [= <-]; by right].
Qed.

Lemma png_size_errors data e :
  png_size data = Raise e -> e = ValueError "Not a PNG file".
Proof.
  unfold png_size, fp_read. destruct (negb _); [by intros [= <-]|discriminate].
Qed.

(** The five ways in which the content of a file can be refused. *)
Definition content_errors : list exn :=
  [ ValueError "Not a JPEG file";
    ValueError "Could not determine JPEG dimensions";
    ValueError "Not a PNG file";
    ValueError "Not a WebP file";
    ValueError "Could not determine WebP dimensions" ].

(** A suffix all of whose characters are ASCII: on such a suffix [lower]
    is [str.lower()], which on other characters may differ from it. *)
Definition is_ascii (s : string) : Prop :=
  Forall (fun c => (nat_of_ascii c < 128)%nat) (list_ascii_of_string s).

(** X12.  [read_image_size] raises a [ValueError] whose message starts
    with 'Unsupported format: ' exactly for the paths whose lower-cased
    suffix is not one of the four supported extensions, and it does so
    whatever the files are, even when the path does not exist.  When the
    suffix is ASCII, the message ends with the lower-cased suffix. *)
Theorem unsupported_format_iff fs path :
  ((exists text,
      read_image_size fs path
      = Raise (ValueError (String.append "Unsupported format: " text)))
   <-> lower (path_suffix path) ∉ SUPPORTED_EXTENSIONS) /\
  (is_ascii (path_suffix path) ->
   lower (path_suffix path) ∉ SUPPORTED_EXTENSIONS ->
   read_image_size fs path
   = Raise (ValueError (String.append "Unsupported format: " (lower (path_suffix path))))).
Proof.
  assert (lower (path_suffix path) ∉ SUPPORTED_EXTENSIONS ->
          read_image_size fs path
          = Raise (ValueError (String.append "Unsupported format: "
                                 (lower (path_suffix path))))) as Hraise.
  { unfold read_image_size, SUPPORTED_EXTENSIONS.
    rewrite !not_elem_of_cons. intros (H1 & H2 & H3 & H4 & _).
    rewrite bool_decide_eq_false_2.
    2:{ intros H. apply elem_of_cons in H as [?|H]; [done|].
        apply elem_of_cons in H as [?|H]; [done|]. by apply elem_of_nil in H. }
    by rewrite !bool_decide_eq_false_2. }
  split; [|intros _; exact Hraise].
  split; [|intros H; eexists; by apply Hraise].
  intros [text Htext] Hin. revert Htext.
  unfold read_image_size, open_rb, SUPPORTED_EXTENSIONS in *.
  case_bool_decide as Hjpg.
  { destruct (fs !! path) as [[data|]|]; simpl; try discriminate.
    intros He. apply jpeg_size_errors in He as [He|He]; discriminate He. }
  case_bool_decide as Hpng.
  { destruct (fs !! path) as [[data|]|]; simpl; try discriminate.
    intros He. apply png_size_errors in He. discriminate He. }
  case_bool_decide as Hwebp.
  { destruct (fs !! path) as [[data|]|]; simpl; try discriminate.
    intros He. apply webp_size_errors in He as [He|He]; discriminate He. }
  intros _.
  apply elem_of_cons in Hin as [Hin|Hin]; [apply Hjpg; rewrite Hin; left|].
  apply elem_of_cons in Hin as [Hin|Hin]; [apply Hjpg; rewrite Hin; right; left|].
  apply elem_of_cons in Hin as [Hin|Hin]; [done|].
  apply elem_of_cons in Hin as [Hin|Hin]; [done|].
  by apply elem_of_nil in Hin.
Qed.

Lemma unsupported_format_iff_witness :
  read_image_size empty_site (site_photos ++ ["Scan.GIF"])
  = Raise (ValueError "Unsupported format: .gif").
Proof.
  apply (unsupported_format_iff empty_site (site_photos ++ ["Scan.GIF"])).
  - unfold is_ascii. vm_compute. repeat constructor.
  - apply (bool_decide_unpack _). vm_compute. exact I.
Defined.

(** X13.  For a file that passes the three tests of the manifest loop (not
    below the thumbnail directory, a regular file, a supported extension)
    the manual parser never reports an unsupported format: it returns
    dimensions, or refuses the content of the file in one of five ways,
    or fails to open the file. *)
Theorem candidate_never_unsupported thumbs_dir fs photo :
  is_candidate thumbs_dir fs photo = true ->
  ((exists dims, read_image_size fs photo = Ok dims) \/
   (exists e, read_image_size fs photo = Raise e /\
              (e = OSError \/ e ∈ content_errors))) /\
  (forall text,
     read_image_size fs photo
     <> Raise (ValueError (String.append "Unsupported format: " text))).
Proof.
  intros Hcand.
  assert ((exists dims, read_image_size fs photo = Ok dims) \/
          (exists e, read_image_size fs photo = Raise e /\ e ∈ content_errors))
    as Hcases.
  { revert Hcand. unfold is_candidate, is_file, SUPPORTED_EXTENSIONS.
    rewrite !andb_true_iff, bool_decide_eq_true.
    intros [[_ Hfile] Hsuffix].
    destruct (fs !! photo) as [[data|]|] eqn:Hnode; try discriminate.
    unfold content_errors.
    apply elem_of_cons in Hsuffix as [Hs|Hsuffix].
    { rewrite (read_image_size_jpeg _ _ data) by (rewrite ?Hs; (done || left)).
      destruct (jpeg_size data) as [dims|e] eqn:Hr; [left; eauto|right].
      exists e. split; [done|].
      apply jpeg_size_errors in Hr as [-> | ->]; [left|right; left]. }
    apply elem_of_cons in Hsuffix as [Hs|Hsuffix].
    { rewrite (read_image_size_jpeg _ _ data) by (rewrite ?Hs; (done || (right; left))).
      destruct (jpeg_size data) as [dims|e] eqn:Hr; [left; eauto|right].
      exists e. split; [done|].
      apply jpeg_size_errors in Hr as [-> | ->]; [left|right; left]. }
    apply elem_of_cons in Hsuffix as [Hs|Hsuffix].
    { rewrite (read_image_size_png _ _ data) by done.
      destruct (png_size data) as [dims|e] eqn:Hr; [left; eauto|right].
      exists e. split; [done|].
      apply png_size_errors in Hr as ->. do 2 right; left. }
    apply elem_of_cons in Hsuffix as [Hs|Hsuffix]; [|by apply elem_of_nil in Hsuffix].
    rewrite (read_image_size_webp _ _ data) by done.
    destruct (webp_size data) as [dims|e] eqn:Hr; [left; eauto|right].
    exists e. split; [done|].
    apply webp_size_errors in Hr as [-> | ->]; [do 3 right; left|do 4 right; left]. }
  split.
  - destruct Hcases as [Hok|(e & He & Hin)]; [by left|right].
    exists e. split; [done|by right].
  - intros text Htext.
    destruct Hcases as [[dims Hok]|(e & He & Hin)]; [congruence|].
    rewrite He in Htext. injection Htext as ->.
    unfold content_errors in Hin.
    repeat (apply elem_of_cons in Hin as [Hin|Hin]; [discriminate Hin|]).
    by apply elem_of_nil in Hin.
Qed.

Lemma candidate_never_unsupported_witness :
  ((exists dims, read_image_size broken_first (site_photos ++ ["a.png"]) = Ok dims) \/
   (exists e, read_image_size broken_first (site_photos ++ ["a.png"]) = Raise e /\
              (e = OSError \/ e ∈ content_errors))) /\
  (forall text,
     read_image_size broken_first (site_photos ++ ["a.png"])
     <> Raise (ValueError (String.append "Unsupported format: " text))).
Proof.
  apply (candidate_never_unsupported site_thumbs broken_first (site_photos ++ ["a.png"])).
  vm_compute; reflexivity.
Defined.

(** ** [describe_alt] *)

Lemma string_map_length f s : String.length (string_map f s) = String.length s.
Proof. induction s as [|c s IH]; simpl; [done|by rewrite IH]. Qed.

Lemma list_ascii_of_string_map f s :
  list_ascii_of_string (string_map f s) = f <$> list_ascii_of_string s.
Proof. induction s as [|c s IH]; simpl; [done|by rewrite IH]. Qed.

Lemma string_map_id_on f s :
  (forall c, c ∈ list_ascii_of_string s -> f c = c) -> string_map f s = s.
Proof.
  induction s as [|c s IH]; simpl; [done|]. intros H.
  rewrite H by left. rewrite IH; [done|]. intros c' Hc'. apply H. by right.
Qed.

(** X14.  The alt text of a file has as many characters as the stem of
    its name and contains neither an underscore nor a hyphen; every other
    character of the stem is kept, so a stem without underscore or hyphen
    is its own alt text. *)
Theorem describe_alt_characters path :
  String.length (describe_alt path) = String.length (path_stem path) /\
  (forall c, c ∈ list_ascii_of_string (describe_alt path) ->
             c ≠ "_"%char /\ c ≠ "-"%char) /\
  list_ascii_of_string (describe_alt path)
  = (fun c => if bool_decide (c = "_"%char \/ c = "-"%char) then " "%char else c)
      <$> list_ascii_of_string (path_stem path) /\
  ((forall c, c ∈ list_ascii_of_string (path_stem path) ->
              c ≠ "_"%char /\ c ≠ "-"%char) ->
   describe_alt path = path_stem path).
Proof.
  unfold describe_alt, replace_char.
  assert (list_ascii_of_string
            (string_map (fun c => if Ascii.eqb c "-" then " "%char else c)
               (string_map (fun c => if Ascii.eqb c "_" then " "%char else c)
                  (path_stem path)))
          = (fun c => if bool_decide (c = "_"%char \/ c = "-"%char) then " "%char else c)
              <$> list_ascii_of_string (path_stem path)) as Hmap.
  { rewrite !list_ascii_of_string_map, <- list_fmap_compose.
    apply list_fmap_ext. intros _ c _. simpl.
    destruct (Ascii.eqb_spec c "_") as [->|H1]; [reflexivity|].
    destruct (Ascii.eqb_spec c "-") as [->|H2]; [reflexivity|].
    rewrite bool_decide_eq_false_2; [reflexivity|]. by intros [|]. }
  split; [by rewrite !string_map_length|].
  split; [|split; [exact Hmap|]].
  - rewrite Hmap. intros c (c' & -> & _)%list_elem_of_fmap.
    case_bool_decide as Hc; [split; discriminate|].
    split; intros ->; apply Hc; [by left|by right].
  - intros Hclean.
    rewrite (string_map_id_on _ (path_stem path)).
    + apply string_map_id_on. intros c Hc. destruct (Hclean c Hc) as [_ H2].
      by destruct (Ascii.eqb_spec c "-").
    + intros c Hc. destruct (Hclean c Hc) as [H1 _].
      by destruct (Ascii.eqb_spec c "_").
Qed.

(** ** [GalleryItem.to_dict]: the order of the keys *)

(** X15.  Whatever the item, its serialization starts with the keys
    [src], [w], [h], [alt] in this order, continues with keys taken in
    order from [thumb], [thumbWidth], [thumbHeight], [caption], and has no
    key twice. *)
Theorem to_dict_key_order self :
  exists optional,
    (to_dict self).*1 = ["src"; "w"; "h"; "alt"] ++ optional /\
    optional `sublist_of` ["thumb"; "thumbWidth"; "thumbHeight"; "caption"] /\
    NoDup (to_dict self).*1.
Proof.
  unfold to_dict.
  destruct (truthy_str (thumb self)), (truthy_int (thumbWidth self) && _),
    (truthy_str (caption self)); simpl;
    (eexists; split; [reflexivity|]; split;
     [repeat (first [apply sublist_nil | apply sublist_skip | apply sublist_cons])
     |apply (bool_decide_unpack _); vm_compute; exact I]).
Qed.

(** * Further properties of the manifest loop *)

Lemma build_loop_outside Image photos_dir thumbs_dir max_edge skip_thumbs photos :
  forall fs items r fs',
    build_loop Image photos_dir thumbs_dir max_edge skip_thumbs fs photos items = (r, fs') ->
    same_outside thumbs_dir fs fs'.
Proof.
  induction photos as [|photo photos IH]; intros fs items r fs'.
  - intros [= <- <-]. apply same_outside_refl.
  - rewrite build_loop_cons.
    destruct (is_candidate thumbs_dir fs photo); [|apply IH].
    destruct (build_item _ _ _ _ _ _ _) as [[item|e] fs1] eqn:Hitem.
    + apply build_item_spec in Hitem as [_ Hout]. intros Hloop.
      eapply same_outside_trans; [exact Hout|]. by eapply IH.
    + apply build_item_raise in Hitem. by intros [= _ <-].
Qed.

(** A collaborator that opens nothing and saves a two-byte thumbnail of
    size 10x5 for whatever it is given. *)
Definition stub_pillow : Pillow :=
  {| pil_open_size := fun _ _ => None;
     pil_thumbnail := fun _ _ _ _ => ThumbSaved [x00; x01] (10, 5) |}.

(** X16.  Building the manifest leaves every regular file that is not
    directly below the thumbnail directory as it was, the photos among
    them, and puts no regular file anywhere else than directly below that
    directory, whatever the collaborator reports.  (Of the directories
    that [destination.parent.mkdir] makes the model keeps no record; they
    are not regular files.) *)
Theorem build_writes_only_thumbnails
    Image photos_dir thumbs_dir max_edge skip_thumbs fs p content :
  path_parent p ≠ thumbs_dir ->
  (build_gallery_items Image photos_dir thumbs_dir max_edge skip_thumbs fs).2 !! p
  = Some (File content)
  <-> fs !! p = Some (File content).
Proof.
  intros Hp. unfold build_gallery_items.
  destruct (iterdir fs photos_dir) as [entries|e]; [|reflexivity].
  destruct (build_loop _ _ _ _ _ _ _ _) as [r fs'] eqn:Hloop.
  apply build_loop_outside in Hloop. simpl. by rewrite (Hloop p Hp).
Qed.

Lemma build_writes_only_thumbnails_witness :
  (build_gallery_items (Some stub_pillow) site_photos site_thumbs 1200 false two_photos).2
    !! (site_photos ++ ["a.jpg"])
  = Some (File jpg_200x100)
  <-> two_photos !! (site_photos ++ ["a.jpg"]) = Some (File jpg_200x100).
Proof.
  apply (build_writes_only_thumbnails (Some stub_pillow) site_photos site_thumbs 1200 false
           two_photos (site_photos ++ ["a.jpg"]) jpg_200x100).
  vm_compute. discriminate.
Defined.

Lemma resolve_thumbnail_without_generation
    Image photos_dir thumbs_dir max_edge skip_thumbs fs photo :
  Image = None \/ skip_thumbs = true ->
  resolve_thumbnail Image photos_dir thumbs_dir max_edge skip_thumbs fs photo =
  let thumb_path := thumbs_dir ++ [path_name photo] in
  if path_exists fs thumb_path then
    match relative_to thumb_path (path_parent photos_dir) with
    | Raise e => (Raise e, fs)
    | Ok rel =>
      match get_image_dimensions Image fs thumb_path with
      | Ok (thumb_width, thumb_height) =>
        (Ok (Some (as_posix rel), Some thumb_width, Some thumb_height), fs)
      | Raise _ => (Ok (Some (as_posix rel), None, None), fs)
      end
    end
  else (Ok (None, None, None), fs).
Proof.
  intros Hno. unfold resolve_thumbnail.
  assert (bool_decide (Image ≠ None) && negb skip_thumbs = false) as ->.
  { destruct Hno as [-> | ->]; [done|]. by rewrite andb_false_r. }
  reflexivity.
Qed.

Lemma build_item_without_generation
    Image photos_dir thumbs_dir max_edge skip_thumbs fs photo :
  Image = None \/ skip_thumbs = true ->
  (build_item Image photos_dir thumbs_dir max_edge skip_thumbs fs photo).2 = fs.
Proof.
  intros Hno. unfold build_item.
  destruct (get_image_dimensions Image fs photo) as [[width height]|e]; [|done].
  rewrite (resolve_thumbnail_without_generation _ _ _ _ _ _ _ Hno). cbv zeta.
  destruct (path_exists _ _); [|done].
  destruct (relative_to _ _); [|done].
  by destruct (get_image_dimensions _ _ _) as [[? ?]|].
Qed.

Lemma build_loop_without_generation
    Image photos_dir thumbs_dir max_edge skip_thumbs fs photos :
  Image = None \/ skip_thumbs = true ->
  forall items,
    (build_loop Image photos_dir thumbs_dir max_edge skip_thumbs fs photos items).2 = fs.
Proof.
  intros Hno. induction photos as [|photo photos IH]; intros items; [done|].
  rewrite build_loop_cons. destruct (is_candidate thumbs_dir fs photo); [|apply IH].
  pose proof (build_item_without_generation Image photos_dir thumbs_dir max_edge
                skip_thumbs fs photo Hno) as Hfs.
  destruct (build_item _ _ _ _ _ _ _) as [[item|e] fs1]; simpl in Hfs; subst fs1;
    [apply IH|done].
Qed.

(** X17.  With the collaborator absent, or with [skip_thumbs] set,
    building the manifest writes nothing: the file system after the build
    is the one before it, whether the build succeeds or raises. *)
Theorem build_without_generation_writes_nothing
    Image photos_dir thumbs_dir max_edge skip_thumbs fs :
  Image = None \/ skip_thumbs = true ->
  (build_gallery_items Image photos_dir thumbs_dir max_edge skip_thumbs fs).2 = fs.
Proof.
  intros Hno. unfold build_gallery_items.
  destruct (iterdir fs photos_dir) as [entries|e]; [|reflexivity].
  by apply build_loop_without_generation.
Qed.

Lemma build_without_generation_writes_nothing_witness :
  (build_gallery_items (Some stub_pillow) site_photos site_thumbs 1200 true broken_first).2
  = broken_first.
Proof.
  apply (build_without_generation_writes_nothing (Some stub_pillow) site_photos site_thumbs
           1200 true broken_first).
  right; reflexivity.
Defined.

(** X18.  When the thumbnail directory is the photo directory itself,
    every entry is skipped: the manifest is empty and nothing is written,
    whatever the directory holds. *)
Theorem thumbs_in_place_empty_manifest Image dir max_edge skip_thumbs fs :
  fs !! dir = Some Dir ->
  build_gallery_items Image dir dir max_edge skip_thumbs fs = (Ok [], fs).
Proof.
  intros Hdir. unfold build_gallery_items.
  destruct (iterdir fs dir) as [entries|e] eqn:Hiter;
    [|unfold iterdir in Hiter; rewrite Hdir in Hiter; discriminate].
  apply iterdir_spec in Hiter as [_ Hiter].
  assert (Forall (fun p => path_parent p = dir) (sorted entries)) as Hall.
  { rewrite Forall_forall. intros p Hp. rewrite sorted_perm in Hp. by apply Hiter. }
  assert (forall items,
            build_loop Image dir dir max_edge skip_thumbs fs (sorted entries) items
            = (Ok items, fs)) as Hloop; [|apply Hloop].
  induction Hall as [|photo photos Hphoto _ IH]; intros items; [done|].
  rewrite build_loop_cons, is_candidate_in_thumbs by done. apply IH.
Qed.

Lemma thumbs_in_place_empty_manifest_witness :
  build_gallery_items None site_photos site_photos 1200 false two_photos
  = (Ok [], two_photos).
Proof.
  apply (thumbs_in_place_empty_manifest None site_photos 1200 false two_photos).
  vm_compute; reflexivity.
Defined.

(** What an item says of a thumbnail kept from an earlier run. *)
Definition thumbnail_reused (Image : option Pillow) (photos_dir thumbs_dir : Path)
    (fs : FS) (photo : Path) (item : GalleryItem) : Prop :=
  let thumb_path := thumbs_dir ++ [path_name photo] in
  if path_exists fs thumb_path then
    (exists rel, relative_to thumb_path (path_parent photos_dir) = Ok rel /\
                 thumb item = Some (as_posix rel)) /\
    match get_image_dimensions Image fs thumb_path with
    | Ok (thumb_width, thumb_height) =>
      thumbWidth item = Some thumb_width /\ thumbHeight item = Some thumb_height
    | Raise _ => thumbWidth item = None /\ thumbHeight item = None
    end
  else thumb item = None /\ thumbWidth item = None /\ thumbHeight item = None.

Lemma build_item_reuse Image photos_dir thumbs_dir max_edge skip_thumbs fs photo item fs' :
  Image = None \/ skip_thumbs = true ->
  build_item Image photos_dir thumbs_dir max_edge skip_thumbs fs photo = (Ok item, fs') ->
  thumbnail_reused Image photos_dir thumbs_dir fs photo item.
Proof.
  intros Hno. unfold build_item, thumbnail_reused.
  destruct (get_image_dimensions Image fs photo) as [[width height]|e]; [|discriminate].
  rewrite (resolve_thumbnail_without_generation _ _ _ _ _ _ _ Hno). cbv zeta.
  destruct (path_exists _ _).
  - destruct (relative_to (thumbs_dir ++ _) _) as [rel|e]; [|discriminate].
    destruct (get_image_dimensions _ _ _) as [[tw th]|e]; simpl;
      (destruct (relative_to photo _); [|discriminate]); simpl;
      intros [= <- _]; simpl; eauto.
  - simpl. destruct (relative_to photo _); [|discriminate]. simpl.
    by intros [= <- _].
Qed.

Lemma build_loop_reuse Image photos_dir thumbs_dir max_edge skip_thumbs fs photos :
  Image = None \/ skip_thumbs = true ->
  forall items out,
    (build_loop Image photos_dir thumbs_dir max_edge skip_thumbs fs photos items).1 = Ok out ->
    exists new,
      out = items ++ new /\
      Forall2 (thumbnail_reused Image photos_dir thumbs_dir fs)
        (filter (fun p => is_candidate thumbs_dir fs p) photos) new.
Proof.
  intros Hno. induction photos as [|photo photos IH]; intros items out.
  - intros [= <-]. exists []. split; [by rewrite app_nil_r|constructor].
  - rewrite build_loop_cons, filter_cons.
    destruct (is_candidate thumbs_dir fs photo) eqn:Hcand.
    + rewrite decide_True by done.
      pose proof (build_item_without_generation Image photos_dir thumbs_dir max_edge
                    skip_thumbs fs photo Hno) as Hfs.
      destruct (build_item _ _ _ _ _ _ _) as [[item|e] fs1] eqn:Hitem;
        simpl in Hfs; subst fs1; [|discriminate].
      apply (build_item_reuse _ _ _ _ _ _ _ _ _ Hno) in Hitem.
      intros Hloop. apply IH in Hloop as (new & -> & Hnew).
      exists (item :: new). split; [by rewrite <- app_assoc|by constructor].
    + rewrite decide_False by (by intros []). apply IH.
Qed.

(** X19.  With the collaborator absent, or with [skip_thumbs] set, the
    thumbnail fields of each item of the manifest are read off the
    thumbnail directory as it is: if a file named like the photo is there,
    the item has its relative path as [thumb], and the dimensions the
    resolver gives for it, or none when the resolver fails on it; if no
    such file is there, the item has no thumbnail field. *)
Theorem thumbnails_reused_from_earlier_run
    Image photos_dir thumbs_dir max_edge skip_thumbs fs entries items :
  Image = None \/ skip_thumbs = true ->
  iterdir fs photos_dir = Ok entries ->
  (build_gallery_items Image photos_dir thumbs_dir max_edge skip_thumbs fs).1 = Ok items ->
  Forall2 (thumbnail_reused Image photos_dir thumbs_dir fs)
    (filter (fun p => is_candidate thumbs_dir fs p) (sorted entries)) items.
Proof.
  intros Hno Hiter. unfold build_gallery_items. rewrite Hiter.
  intros Hloop. apply (build_loop_reuse _ _ _ _ _ _ _ Hno) in Hloop as (new & -> & Hnew).
  exact Hnew.
Qed.

Lemma thumbnails_reused_from_earlier_run_witness :
  Forall2 (thumbnail_reused None site_photos site_thumbs kept_thumb)
    (filter (fun p => is_candidate site_thumbs kept_thumb p)
       (sorted [site_thumbs; site_photos ++ ["a.jpg"]; site_photos ++ ["b.png"]]))
    [ {| src := "photos/a.jpg"; w := 200; h := 100; alt := "a";
         thumb := None; thumbWidth := None; thumbHeight := None;
         caption := Some "a" |};
      {| src := "photos/b.png"; w := 100; h := 50; alt := "b";
         thumb := Some "photos/thumbs/b.png"; thumbWidth := Some 100;
         thumbHeight := Some 50; caption := Some "b" |} ].
Proof.
  apply (thumbnails_reused_from_earlier_run None site_photos site_thumbs 1200 false
           kept_thumb).
  - left; reflexivity.
  - vm_compute; reflexivity.
  - vm_compute; reflexivity.
Defined.

(** * [collect_source_images] *)

Definition is_dir (fs : FS) (p : Path) : bool :=
  match fs !! p with Some Dir => true | _ => false end.

(** [source.rglob('*')]: the entries below [source] that are reached
    through directories only, [source] included; in no particular
    order. *)
Definition rglob_all (fs : FS) (source : Path) : list Path :=
  filter (fun p =>
            (length source < length p)%nat /\
            take (length source) p = source /\
            Forall (fun k => is_dir fs (take k p) = true)
              (seq (length source) (length p - length source)))
    (map_to_list fs).*1.

(** The loop of the generator, on the sorted entries; [yield] puts the
    path in front of what the rest of the loop yields. *)
Fixpoint collect_loop (fs : FS) (photos_dir : Path) (paths : list Path) : list Path :=
  match paths with
  | [] => []
  | path :: paths' =>
    if negb (is_file fs path) then collect_loop fs photos_dir paths'
    else if negb (bool_decide (lower (path_suffix path) ∈ SUPPORTED_EXTENSIONS))
    then collect_loop fs photos_dir paths'
    else if bool_decide (lower (path_name path) = "rogo.webp")
    then collect_loop fs photos_dir paths'
    else
      match relative_to path photos_dir with
      | Ok _ => collect_loop fs photos_dir paths'
      | Raise _ => path :: collect_loop fs photos_dir paths'
      end
  end.

Definition collect_source_images (fs : FS) (source photos_dir : Path) : list Path :=
  collect_loop fs photos_dir (sorted (rglob_all fs source)).

Lemma strip_prefix_complete base rel : strip_prefix base (base ++ rel) = Some rel.
Proof.
  induction base as [|b base IH]; simpl; [done|].
  by rewrite bool_decide_eq_true_2.
Qed.

Lemma strip_prefix_None base p :
  strip_prefix base p = None <-> forall rel, p ≠ base ++ rel.
Proof.
  split.
  - intros Hnone rel ->. by rewrite strip_prefix_complete in Hnone.
  - intros Hne. destruct (strip_prefix base p) as [rel|] eqn:Hs; [|done].
    apply strip_prefix_app in Hs. by destruct (Hne rel).
Qed.

Lemma collect_loop_filter fs photos_dir paths :
  collect_loop fs photos_dir paths =
  filter (fun p => is_file fs p = true /\
                   lower (path_suffix p) ∈ SUPPORTED_EXTENSIONS /\
                   lower (path_name p) ≠ "rogo.webp" /\
                   strip_prefix photos_dir p = None) paths.
Proof.
  induction paths as [|path paths IH]; [done|].
  simpl collect_loop. rewrite filter_cons, IH. unfold relative_to.
  destruct (decide _) as [(Hf & Hs & Hn & Hr)|Hnot].
  - rewrite Hf, Hr. simpl.
    rewrite (bool_decide_eq_true_2 _ Hs), (bool_decide_eq_false_2 _ Hn). done.
  - destruct (is_file fs path) eqn:Hf; simpl; [|done].
    case_bool_decide as Hs; simpl; [|done].
    case_bool_decide as Hn; simpl; [done|].
    destruct (strip_prefix photos_dir path) eqn:Hr; [done|].
    by destruct Hnot.
Qed.

Lemma rglob_all_below fs source p :
  p ∈ rglob_all fs source ->
  is_Some (fs !! p) /\ exists rel, rel ≠ [] /\ p = source ++ rel.
Proof.
  intros [(Hlen & Hpre & _) Hin]%list_elem_of_filter. split.
  - apply list_elem_of_fmap in Hin as [[p' n] [-> Hin]].
    apply elem_of_map_to_list in Hin. eauto.
  - exists (drop (length source) p). split.
    + intros Hnil. apply (f_equal length) in Hnil. rewrite length_drop in Hnil.
      simpl in Hnil. lia.
    + by rewrite <- Hpre at 1; rewrite take_drop.
Qed.

(** X20.  The source images collected for copying are, in strictly
    increasing order of path and without repetition, exactly the entries
    found below the source directory that are regular files with a
    supported extension, are not named [rogo.webp] in any letter case, and
    do not lie in or below the photo directory; each of them exists and is
    strictly below the source directory. *)
Theorem collected_source_images fs source photos_dir :
  StronglySorted (fun p q => path_ltb p q = true)
    (collect_source_images fs source photos_dir) /\
  forall p,
    p ∈ collect_source_images fs source photos_dir <->
    p ∈ rglob_all fs source /\
    is_file fs p = true /\
    lower (path_suffix p) ∈ SUPPORTED_EXTENSIONS /\
    lower (path_name p) ≠ "rogo.webp" /\
    (forall rel, p ≠ photos_dir ++ rel).
Proof.
  unfold collect_source_images. rewrite collect_loop_filter. split.
  - apply StronglySorted_filter, StronglySorted_strict; [apply sorted_StronglySorted|].
    rewrite sorted_perm. apply NoDup_filter, NoDup_fst_map_to_list.
  - intros p. rewrite list_elem_of_filter, sorted_perm, strip_prefix_None. tauto.
Qed.

(** A site with a photo in its root, the logo, a photo already in
    [photos/], a text file and a photo in a sub-directory. *)
Definition site_with_sources : FS :=
  <[["site"; "new.JPG"] := File jpg_200x100]>
  (<[["site"; "Rogo.webp"] := File webp_no_chunk]>
  (<[["site"; "notes.txt"] := File [x00]]>
  (<[["site"; "album"] := Dir]>
  (<[["site"; "album"; "c.png"] := File png_100x50]>
  (<[["site"] := Dir]> two_photos))))).

Example collect_source_images_sample :
  collect_source_images site_with_sources ["site"] site_photos
  = [["site"; "album"; "c.png"]; ["site"; "new.JPG"]].
Proof. vm_compute; reflexivity. Qed.

(** * [update_index_html]: the lines of the page

    The function reads [index.html], splits it into lines, replaces two
    blocks of lines and writes the lines back.  The part modelled is the
    one between the reading and the writing: [locate] and the two [try]
    blocks, as a function from the lines of the page, the gallery markup
    lines and the data lines to the new lines of the page.  (The two
    rendering functions are called inside the [try] blocks, after both
    markers are found; they raise nothing, so their results are taken as
    arguments.) *)

(** [marker in line]. *)
Fixpoint contains (marker line : string) : bool :=
  String.prefix marker line ||
  match line with
  | "" => false
  | String _ line' => contains marker line'
  end.

(** The index of the first line that contains the marker;
    [ValueError(marker)] when no line does. *)
Fixpoint locate (lines : list string) (marker : string) : result nat :=
  match lines with
  | [] => Raise (ValueError marker)
  | line :: lines' =>
    if contains marker line then Ok 0%nat
    else idx ← locate lines' marker; Ok (S idx)
  end.

(** [lines[lo:hi] = new_lines] for indices that are not negative: both
    are cut down to the length, and an upper index below the lower one
    counts as the lower one, so that nothing is removed. *)
Definition slice_assign (lines : list string) (lo hi : nat) (new_lines : list string)
  : list string :=
  take lo lines ++ new_lines ++ drop (lo `max` hi) lines.

(** One [try] block: both markers are located, then the lines strictly
    between them are replaced; a marker that is not found leaves the
    lines as they are. *)
Definition update_block (lines : list string) (start_marker end_marker : string)
    (new_lines : list string) : list string :=
  match (block_start ← locate lines start_marker;
         block_end ← locate lines end_marker;
         Ok (slice_assign lines (block_start + 1) block_end new_lines)) with
  | Ok lines' => lines'
  | Raise _ => lines
  end.

Definition gallery_start : string := "<!-- gallery:start -->".
Definition gallery_end : string := "<!-- gallery:end -->".
Definition data_start : string := "<!-- gallery-data:start -->".
Definition data_end : string := "<!-- gallery-data:end -->".

Definition update_index_lines (lines gallery_lines data_lines : list string)
  : list string :=
  let lines := update_block lines gallery_start gallery_end gallery_lines in
  update_block lines data_start data_end data_lines.

(** No line of [lines] contains [marker]. *)
Definition marker_free (marker : string) (lines : list string) : Prop :=
  Forall (fun line => contains marker line = false) lines.

Lemma locate_first lines marker line rest :
  marker_free marker lines -> contains marker line = true ->
  locate (lines ++ line :: rest) marker = Ok (length lines).
Proof.
  intros Hfree Hline. induction Hfree as [|l lines Hl _ IH]; simpl.
  - by rewrite Hline.
  - by rewrite Hl, IH.
Qed.

Lemma locate_none lines marker :
  marker_free marker lines -> locate lines marker = Raise (ValueError marker).
Proof.
  induction 1 as [|l lines Hl _ IH]; simpl; [done|]. by rewrite Hl, IH.
Qed.

Lemma marker_free_app marker l1 l2 :
  marker_free marker (l1 ++ l2) <-> marker_free marker l1 /\ marker_free marker l2.
Proof. unfold marker_free. apply Forall_app. Qed.

Lemma marker_free_cons marker l ls :
  marker_free marker (l :: ls) <-> contains marker l = false /\ marker_free marker ls.
Proof. apply (Forall_cons (fun line => contains marker line = false)). Qed.

Ltac split_marker_free :=
  repeat match goal with
  | H : marker_free _ (_ ++ _) |- _ => apply marker_free_app in H as [? ?]
  | H : marker_free _ (_ :: _) |- _ => apply marker_free_cons in H as [? ?]
  | |- marker_free _ (_ ++ _) => apply marker_free_app; split
  | |- marker_free _ (_ :: _) => apply marker_free_cons; split
  end; try assumption.

(** A block whose markers come in order: the lines between the first line
    with the start marker and the first line with the end marker are
    replaced. *)
Lemma update_block_between pre s old e post start_marker end_marker new_lines :
  marker_free start_marker pre -> contains start_marker s = true ->
  marker_free end_marker (pre ++ s :: old) -> contains end_marker e = true ->
  update_block (pre ++ s :: old ++ e :: post) start_marker end_marker new_lines
  = pre ++ s :: new_lines ++ e :: post.
Proof.
  intros Hs1 Hs2 He1 He2. unfold update_block.
  rewrite (locate_first _ _ _ _ Hs1 Hs2). simpl.
  replace (pre ++ s :: old ++ e :: post) with ((pre ++ s :: old) ++ e :: post)
    by (by rewrite <- app_assoc).
  rewrite (locate_first _ _ _ _ He1 He2). simpl.
  unfold slice_assign. rewrite length_app. simpl length.
  rewrite Nat.max_r by lia.
  rewrite drop_app_length' by (rewrite length_app; simpl; lia).
  rewrite <- app_assoc. simpl.
  replace (pre ++ s :: old ++ e :: post) with ((pre ++ [s]) ++ old ++ e :: post)
    by (by rewrite <- app_assoc).
  rewrite take_app_length' by (rewrite length_app; simpl; lia).
  by rewrite <- app_assoc.
Qed.

Lemma update_block_missing lines start_marker end_marker new_lines :
  marker_free start_marker lines \/ marker_free end_marker lines ->
  update_block lines start_marker end_marker new_lines = lines.
Proof.
  intros [Hfree|Hfree]; unfold update_block.
  - by rewrite (locate_none _ _ Hfree).
  - rewrite (locate_none _ end_marker Hfree).
    by destruct (locate lines start_marker).
Qed.

Lemma update_index_lines_replaces_blocks_aux
    head gs old_gallery ge middle ds old_data de tail gallery_lines data_lines :
  marker_free gallery_start head ->
  contains gallery_start gs = true ->
  marker_free gallery_end (head ++ gs :: old_gallery) ->
  contains gallery_end ge = true ->
  marker_free data_start (head ++ gs :: gallery_lines ++ ge :: middle) ->
  contains data_start ds = true ->
  marker_free data_end (head ++ gs :: gallery_lines ++ ge :: middle ++ ds :: old_data) ->
  contains data_end de = true ->
  update_index_lines
    (head ++ gs :: old_gallery ++ ge :: middle ++ ds :: old_data ++ de :: tail)
    gallery_lines data_lines
  = head ++ gs :: gallery_lines ++ ge :: middle ++ ds :: data_lines ++ de :: tail.
Proof.
  intros Hgs1 Hgs2 Hge1 Hge2 Hds1 Hds2 Hde1 Hde2. unfold update_index_lines.
  rewrite (update_block_between head gs old_gallery ge _ _ _ _ Hgs1 Hgs2 Hge1 Hge2).
  replace (head ++ gs :: gallery_lines ++ ge :: middle ++ ds :: old_data ++ de :: tail)
    with ((head ++ gs :: gallery_lines ++ ge :: middle) ++ ds :: old_data ++ de :: tail)
    by (rewrite <- app_assoc; simpl; by rewrite <- app_assoc).
  rewrite (update_block_between _ ds old_data de tail _ _ _ Hds1 Hds2); [|  |exact Hde2].
  - rewrite <- app_assoc. simpl. by rewrite <- app_assoc.
  - rewrite <- app_assoc. simpl. rewrite <- app_assoc. exact Hde1.
Qed.

(** X21.  On a page where, in this order, a line holds the gallery start
    marker, a later line the gallery end marker, a later line the data
    start marker and a later line the data end marker (each the first
    line to hold its marker, the new gallery lines holding no data
    marker), the update keeps every line outside the two blocks, the four
    marker lines included, and puts the new gallery lines and the new data
    lines in place of what stood between the markers. *)
Theorem update_index_lines_replaces_blocks
    head gs old_gallery ge middle ds old_data de tail gallery_lines data_lines :
  marker_free gallery_start head ->
  contains gallery_start gs = true ->
  marker_free gallery_end (head ++ gs :: old_gallery) ->
  contains gallery_end ge = true ->
  marker_free data_start (head ++ gs :: gallery_lines ++ ge :: middle) ->
  contains data_start ds = true ->
  marker_free data_end (head ++ gs :: gallery_lines ++ ge :: middle ++ ds :: old_data) ->
  contains data_end de = true ->
  update_index_lines
    (head ++ gs :: old_gallery ++ ge :: middle ++ ds :: old_data ++ de :: tail)
    gallery_lines data_lines
  = head ++ gs :: gallery_lines ++ ge :: middle ++ ds :: data_lines ++ de :: tail.
Proof.
  intros. by apply update_index_lines_replaces_blocks_aux.
Qed.

(** A page with both blocks, each holding one old line. *)
Definition sample_page : list string :=
  [ "<main>";
    "  <!-- gallery:start -->";
    "  <p>old</p>";
    "  <!-- gallery:end -->";
    "</main>";
    "<!-- gallery-data:start -->";
    "[]";
    "<!-- gallery-data:end -->";
    "</html>" ].

Lemma update_index_lines_replaces_blocks_witness :
  update_index_lines sample_page ["  <figure/>"; "  <figure/>"] ["[1]"]
  = [ "<main>";
      "  <!-- gallery:start -->";
      "  <figure/>"; "  <figure/>";
      "  <!-- gallery:end -->";
      "</main>";
      "<!-- gallery-data:start -->";
      "[1]";
      "<!-- gallery-data:end -->";
      "</html>" ].
Proof.
  apply (update_index_lines_replaces_blocks
           ["<main>"] "  <!-- gallery:start -->" ["  <p>old</p>"]
           "  <!-- gallery:end -->" ["</main>"]
           "<!-- gallery-data:start -->" ["[]"] "<!-- gallery-data:end -->"
           ["</html>"] ["  <figure/>"; "  <figure/>"] ["[1]"]);
    try (vm_compute; reflexivity);
    repeat constructor.
Defined.

(** X22.  On such a page the update is idempotent, provided the new
    gallery lines hold no gallery end marker and the new data lines no
    data end marker: running it a second time with the same lines gives
    the page of the first run, so repeated builds do not grow the page. *)
Theorem update_index_lines_idempotent
    head gs old_gallery ge middle ds old_data de tail gallery_lines data_lines :
  marker_free gallery_start head ->
  contains gallery_start gs = true ->
  marker_free gallery_end (head ++ gs :: old_gallery) ->
  contains gallery_end ge = true ->
  marker_free data_start (head ++ gs :: gallery_lines ++ ge :: middle) ->
  contains data_start ds = true ->
  marker_free data_end (head ++ gs :: gallery_lines ++ ge :: middle ++ ds :: old_data) ->
  contains data_end de = true ->
  marker_free gallery_end gallery_lines ->
  marker_free data_end data_lines ->
  let page := head ++ gs :: old_gallery ++ ge :: middle ++ ds :: old_data ++ de :: tail in
  update_index_lines (update_index_lines page gallery_lines data_lines)
    gallery_lines data_lines
  = update_index_lines page gallery_lines data_lines.
Proof.
  intros Hgs1 Hgs2 Hge1 Hge2 Hds1 Hds2 Hde1 Hde2 Hg Hd page. subst page.
  rewrite (update_index_lines_replaces_blocks_aux
             head gs old_gallery ge middle ds old_data de tail gallery_lines data_lines)
    by assumption.
  apply update_index_lines_replaces_blocks_aux; try assumption.
  - split_marker_free.
  - split_marker_free.
Qed.

Lemma update_index_lines_idempotent_witness :
  update_index_lines
    (update_index_lines sample_page ["  <figure/>"; "  <figure/>"] ["[1]"])
    ["  <figure/>"; "  <figure/>"] ["[1]"]
  = update_index_lines sample_page ["  <figure/>"; "  <figure/>"] ["[1]"].
Proof.
  apply (update_index_lines_idempotent
           ["<main>"] "  <!-- gallery:start -->" ["  <p>old</p>"]
           "  <!-- gallery:end -->" ["</main>"]
           "<!-- gallery-data:start -->" ["[]"] "<!-- gallery-data:end -->"
           ["</html>"] ["  <figure/>"; "  <figure/>"] ["[1]"]);
    try (vm_compute; reflexivity);
    repeat constructor.
Defined.

Lemma update_block_reversed pre e middle s post start_marker end_marker new_lines :
  marker_free start_marker (pre ++ e :: middle) -> contains start_marker s = true ->
  marker_free end_marker pre -> contains end_marker e = true ->
  update_block (pre ++ e :: middle ++ s :: post) start_marker end_marker new_lines
  = pre ++ e :: middle ++ s :: new_lines ++ post.
Proof.
  intros Hs1 Hs2 He1 He2. unfold update_block.
  rewrite (locate_first _ _ _ _ He1 He2).
  replace (pre ++ e :: middle ++ s :: post) with ((pre ++ e :: middle) ++ s :: post)
    by (by rewrite <- app_assoc).
  rewrite (locate_first _ _ _ _ Hs1 Hs2). simpl.
  unfold slice_assign. rewrite Nat.max_l by (rewrite length_app; lia).
  replace ((pre ++ e :: middle) ++ s :: post) with (((pre ++ e :: middle) ++ [s]) ++ post)
    by (by rewrite <- (app_assoc _ [s])).
  rewrite take_app_length', drop_app_length' by (rewrite !length_app; simpl; lia).
  rewrite <- !app_assoc. reflexivity.
Qed.

(** X23.  On a page where the first line with the gallery end marker
    stands before the first line with the gallery start marker, the
    update removes nothing: the new gallery lines are inserted right after
    the start marker line and every line of the page is kept, so each run
    adds the lines once more.  (Stated for a page without data start
    marker, whose data block is left alone.) *)
Theorem update_index_lines_reversed_markers
    head ge middle gs tail gallery_lines data_lines :
  marker_free gallery_start (head ++ ge :: middle) ->
  contains gallery_start gs = true ->
  marker_free gallery_end head ->
  contains gallery_end ge = true ->
  marker_free data_start (head ++ ge :: middle ++ gs :: gallery_lines ++ tail) ->
  update_index_lines (head ++ ge :: middle ++ gs :: tail) gallery_lines data_lines
  = head ++ ge :: middle ++ gs :: gallery_lines ++ tail.
Proof.
  intros Hs1 Hs2 He1 He2 Hdata. unfold update_index_lines.
  rewrite (update_block_reversed head ge middle gs tail _ _ _ Hs1 Hs2 He1 He2).
  apply update_block_missing. by left.
Qed.

Lemma update_index_lines_reversed_markers_witness :
  update_index_lines
    ["<!-- gallery:end -->"; "<p>kept</p>"; "<!-- gallery:start -->"; "</html>"]
    ["<figure/>"] ["[]"]
  = ["<!-- gallery:end -->"; "<p>kept</p>"; "<!-- gallery:start -->"; "<figure/>";
     "</html>"].
Proof.
  apply (update_index_lines_reversed_markers
           [] "<!-- gallery:end -->" ["<p>kept</p>"] "<!-- gallery:start -->"
           ["</html>"] ["<figure/>"] ["[]"]);
    try (vm_compute; reflexivity);
    repeat constructor.
Defined.

(** X24.  A block of which one marker is missing from the page is left
    alone; when this is so for both blocks, the update returns the lines
    of the page unchanged. *)
Theorem update_index_lines_without_markers lines gallery_lines data_lines :
  marker_free gallery_start lines \/ marker_free gallery_end lines ->
  marker_free data_start lines \/ marker_free data_end lines ->
  update_index_lines lines gallery_lines data_lines = lines.
Proof.
  intros Hgallery Hdata. unfold update_index_lines.
  rewrite (update_block_missing _ _ _ _ Hgallery).
  by apply update_block_missing.
Qed.

Lemma update_index_lines_without_markers_witness :
  update_index_lines ["<html>"; "<!-- gallery:start -->"; "</html>"] ["<figure/>"] ["[]"]
  = ["<html>"; "<!-- gallery:start -->"; "</html>"].
Proof.
  apply (update_index_lines_without_markers
           ["<html>"; "<!-- gallery:start -->"; "</html>"] ["<figure/>"] ["[]"]).
  - right. repeat constructor.
  - left. repeat constructor.
Defined.

(** * [render_gallery_markup_lines] *)

(** The double quote character, and [name="value"]. *)
Definition dq : string := String (ascii_of_nat 34) "".

Definition attr (name value : string) : string :=
  name +:+ "=" +:+ dq +:+ value +:+ dq.

(** [s.replace(c, by)] for a single character [c]. *)
Fixpoint replace_char_str (c : ascii) (by_ : string) (s : string) : string :=
  match s with
  | "" => ""
  | String a s' =>
    if Ascii.eqb a c then by_ +:+ replace_char_str c by_ s'
    else String a (replace_char_str c by_ s')
  end.

(** [html.escape(s)], with [quote=True]: five replacements in a row. *)
Definition escape (s : string) : string :=
  let s := replace_char_str "&" "&amp;" s in
  let s := replace_char_str "<" "&lt;" s in
  let s := replace_char_str ">" "&gt;" s in
  let s := replace_char_str (ascii_of_nat 34) "&quot;" s in
  let s := replace_char_str "'" "&#x27;" s in
  s.

(** [str(n)] for an integer and for an index. *)
Definition str_of_int (n : Z) : string := NilZero.string_of_int (Z.to_int n).

Definition str_of_nat (n : nat) : string := NilZero.string_of_uint (Nat.to_uint n).

(** [s.split(sep)] for a single character. *)
Fixpoint split_on (sep : ascii) (s : string) : list string :=
  match s with
  | "" => [""]
  | String c s' =>
    if Ascii.eqb c sep then "" :: split_on sep s'
    else
      match split_on sep s' with
      | [] => [String c ""]
      | part :: parts => String c part :: parts
      end
  end.

(** [Path(s)]: the components between slashes, empty ones and [.]
    dropped. *)
Definition path_of_string (s : string) : Path :=
  filter (fun part => part ≠ "" /\ part ≠ ".") (split_on "/" s).

(** [" ".join(parts)]. *)
Fixpoint join_space (parts : list string) : string :=
  match parts with
  | [] => ""
  | [part] => part
  | part :: parts' => part +:+ " " +:+ join_space parts'
  end.

(** The six lines of one item. *)
Definition render_item (index : nat) (item : GalleryItem) : list string :=
  let caption :=
    if truthy_str (caption item) then default "" (caption item)
    else if negb (bool_decide (alt item = "")) then alt item
    else path_stem (path_of_string (src item)) in
  let alt_text := if negb (bool_decide (alt item = "")) then alt item else caption in
  let thumb_src := if truthy_str (thumb item) then default "" (thumb item) else src item in
  let width := if truthy_int (thumbWidth item) then default 0 (thumbWidth item) else w item in
  let height := if truthy_int (thumbHeight item) then default 0 (thumbHeight item) else h item in
  let img_attrs :=
    [ attr "class" "gallery-item__image";
      attr "src" (escape thumb_src);
      attr "alt" (escape alt_text);
      attr "loading" "lazy";
      attr "decoding" "async" ] in
  let img_attrs :=
    if negb (bool_decide (width = 0)) then img_attrs ++ [attr "width" (str_of_int width)]
    else img_attrs in
  let img_attrs :=
    if negb (bool_decide (height = 0)) then img_attrs ++ [attr "height" (str_of_int height)]
    else img_attrs in
  let label_text := escape (caption +:+ "を拡大表示") in
  [ "        <figure " +:+ attr "class" "gallery-item" +:+ " " +:+ attr "role" "listitem" +:+ ">";
    "          <button " +:+ attr "class" "gallery-item__button" +:+ " "
      +:+ attr "type" "button" +:+ " " +:+ attr "data-gallery-index" (str_of_nat index)
      +:+ " " +:+ attr "aria-label" label_text +:+ ">";
    "            <img " +:+ join_space img_attrs +:+ " />";
    "            <figcaption " +:+ attr "class" "gallery-item__caption" +:+ ">"
      +:+ escape caption +:+ "</figcaption>";
    "          </button>";
    "        </figure>" ].

(** The loop over [enumerate(items)], from a given index on. *)
Fixpoint render_loop (index : nat) (items : list GalleryItem) : list string :=
  match items with
  | [] => []
  | item :: items' => render_item index item ++ render_loop (S index) items'
  end.

Definition render_gallery_markup_lines (items : list GalleryItem) : list string :=
  match items with
  | [] => ["        <p " +:+ attr "class" "gallery-empty" +:+ ">表示できる写真がありません。</p>"]
  | _ => render_loop 0 items
  end.

(** ** No rendered line opens an HTML comment *)

(** [s] has no character [<]. *)
Fixpoint lt_free (s : string) : bool :=
  match s with
  | "" => true
  | String c s' => negb (Ascii.eqb c "<") && lt_free s'
  end.

(** [s] has no [<] followed by [!], and does not end with [<]. *)
Fixpoint opens_no_comment (s : string) : bool :=
  match s with
  | "" => true
  | String c s' =>
    if Ascii.eqb c "<" then
      match s' with
      | "" => false
      | String c' _ => negb (Ascii.eqb c' "!") && opens_no_comment s'
      end
    else opens_no_comment s'
  end.

Lemma lt_free_app a b : lt_free (a +:+ b) = lt_free a && lt_free b.
Proof.
  induction a as [|c a IH]; simpl; [done|]. rewrite IH. by rewrite andb_assoc.
Qed.

Lemma lt_free_opens_no_comment s : lt_free s = true -> opens_no_comment s = true.
Proof.
  induction s as [|c s IH]; simpl; [done|].
  destruct (Ascii.eqb c "<"); simpl; [discriminate|exact IH].
Qed.

Lemma opens_no_comment_app a b :
  opens_no_comment a = true -> opens_no_comment b = true ->
  opens_no_comment (a +:+ b) = true.
Proof.
  intros Ha Hb. induction a as [|c a IH]; simpl in *; [done|].
  destruct (Ascii.eqb c "<").
  - destruct a as [|c' a]; [discriminate|]. simpl in *.
    apply andb_true_iff in Ha as [Hc' Ha]. rewrite Hc'. simpl. by apply IH.
  - by apply IH.
Qed.

Lemma opens_no_comment_tail c s :
  opens_no_comment (String c s) = true -> opens_no_comment s = true.
Proof.
  simpl. destruct (Ascii.eqb c "<"); [|done].
  destruct s; [discriminate|]. by intros [_ H]%andb_true_iff.
Qed.

Lemma contains_comment_marker marker s :
  String.prefix "<!" marker = true ->
  opens_no_comment s = true -> contains marker s = false.
Proof.
  intros Hmarker.
  destruct marker as [|m1 marker]; [discriminate|]. cbn [String.prefix] in Hmarker.
  destruct (ascii_dec "<" m1) as [<-|]; [|discriminate].
  destruct marker as [|m2 marker]; [discriminate|]. cbn [String.prefix] in Hmarker.
  destruct (ascii_dec "!" m2) as [<-|]; [|discriminate].
  clear Hmarker. induction s as [|c s IH]; intros Hs; [reflexivity|].
  cbn [contains]. rewrite (IH (opens_no_comment_tail _ _ Hs)), orb_false_r.
  cbn [String.prefix].
  destruct (ascii_dec "<" c) as [<-|]; [|done].
  destruct s as [|c' s]; [done|]. cbn [String.prefix].
  destruct (ascii_dec "!" c') as [<-|]; [|done].
  discriminate Hs.
Qed.

Lemma lt_free_replace c by_ s :
  lt_free by_ = true -> c = "<"%char \/ lt_free s = true ->
  lt_free (replace_char_str c by_ s) = true.
Proof.
  intros Hby Hs. induction s as [|a s IH]; simpl; [done|].
  destruct (Ascii.eqb_spec a c) as [->|Hne].
  - rewrite lt_free_app, Hby. simpl. apply IH.
    destruct Hs as [?|Hs]; [by left|right].
    simpl in Hs. by apply andb_true_iff in Hs as [_ ?].
  - simpl. destruct Hs as [->|Hs].
    + destruct (Ascii.eqb_spec a "<"); [done|]. simpl. apply IH. by left.
    + simpl in Hs. apply andb_true_iff in Hs as [Ha Hs]. rewrite Ha. simpl.
      apply IH. by right.
Qed.

Lemma lt_free_escape s : lt_free (escape s) = true.
Proof.
  unfold escape.
  unfold escape. do 3 (apply lt_free_replace; [reflexivity|right]).
  apply lt_free_replace; [reflexivity|by left].
Qed.

Lemma lt_free_string_of_uint d : lt_free (NilEmpty.string_of_uint d) = true.
Proof. induction d; simpl; done. Qed.

Lemma lt_free_nilzero_uint d : lt_free (NilZero.string_of_uint d) = true.
Proof.
  unfold NilZero.string_of_uint.
  destruct d; try reflexivity; apply (lt_free_string_of_uint (_ _)).
Qed.

Lemma lt_free_str_of_nat n : lt_free (str_of_nat n) = true.
Proof. apply lt_free_nilzero_uint. Qed.

Lemma lt_free_str_of_int n : lt_free (str_of_int n) = true.
Proof.
  unfold str_of_int, NilZero.string_of_int.
  destruct (Z.to_int n) as [d|d]; [apply lt_free_nilzero_uint|].
  change (lt_free (NilZero.string_of_uint d) = true). apply lt_free_nilzero_uint.
Qed.

Lemma lt_free_attr name value :
  lt_free name = true -> lt_free value = true -> lt_free (attr name value) = true.
Proof.
  intros Hn Hv. unfold attr. rewrite !lt_free_app, Hn, Hv. reflexivity.
Qed.

Lemma lt_free_join_space parts :
  Forall (fun part => lt_free part = true) parts -> lt_free (join_space parts) = true.
Proof.
  induction 1 as [|part parts Hp Hall IH]; [done|].
  destruct parts as [|part' parts]; [exact Hp|].
  change (join_space (part :: part' :: parts))
    with (part +:+ " " +:+ join_space (part' :: parts)).
  rewrite !lt_free_app, Hp, IH. reflexivity.
Qed.

Lemma render_item_opens_no_comment index item :
  Forall (fun line => opens_no_comment line = true) (render_item index item).
Proof.
  unfold render_item.
  set (cap := if truthy_str (caption item) then _ else _).
  set (alt_text := if negb (bool_decide (alt item = "")) then _ else _).
  set (thumb_src := if truthy_str (thumb item) then _ else _).
  set (width := if truthy_int (thumbWidth item) then _ else _).
  set (height := if truthy_int (thumbHeight item) then _ else _).
  repeat constructor;
    repeat (apply opens_no_comment_app; try reflexivity);
    apply lt_free_opens_no_comment;
    try apply lt_free_attr; try reflexivity;
    try apply lt_free_escape; try apply lt_free_str_of_nat.
  apply lt_free_join_space.
  destruct (negb (bool_decide (width = 0))), (negb (bool_decide (height = 0)));
    repeat constructor;
    apply lt_free_attr; try reflexivity;
    apply lt_free_escape || apply lt_free_str_of_int.
Qed.

Lemma render_lines_open_no_comment items :
  Forall (fun line => opens_no_comment line = true) (render_gallery_markup_lines items).
Proof.
  unfold render_gallery_markup_lines. destruct items as [|item items].
  - repeat constructor.
  - generalize 0%nat. generalize (item :: items). clear.
    intros items. induction items as [|item items IH]; intros index; [constructor|].
    cbn [render_loop]. apply Forall_app. split; [apply render_item_opens_no_comment|apply IH].
Qed.

(** X25.  Whatever the items (file names, alt texts and captions of any
    content), no line of the rendered gallery markup contains any marker
    that starts an HTML comment; in particular none contains one of the
    four markers the page update looks for. *)
Theorem rendered_markup_has_no_marker items marker :
  String.prefix "<!" marker = true ->
  marker_free marker (render_gallery_markup_lines items).
Proof.
  intros Hmarker. unfold marker_free.
  eapply Forall_impl; [apply render_lines_open_no_comment|].
  intros line Hline. by apply contains_comment_marker.
Qed.

Lemma rendered_markup_has_no_marker_witness :
  marker_free gallery_end
    (render_gallery_markup_lines
       [ {| src := "photos/<!-- gallery:end -->.jpg"; w := 200; h := 100;
            alt := "<!-- gallery:end -->"; thumb := None; thumbWidth := None;
            thumbHeight := None; caption := Some "<!-- gallery:end -->" |} ]).
Proof.
  apply (rendered_markup_has_no_marker _ gallery_end). reflexivity.
Defined.

Lemma rendered_markup_lines_marker_free items :
  marker_free gallery_start (render_gallery_markup_lines items) /\
  marker_free gallery_end (render_gallery_markup_lines items) /\
  marker_free data_start (render_gallery_markup_lines items) /\
  marker_free data_end (render_gallery_markup_lines items).
Proof.
  repeat split; unfold marker_free;
    (eapply Forall_impl; [apply render_lines_open_no_comment|]);
    intros line Hline; by apply contains_comment_marker.
Qed.

(** X26.  On a page whose four marker lines come in order, updating with
    the markup rendered from any items and with data lines that hold no
    data end marker is idempotent: a second run with the same items and
    data lines leaves the page of the first run as it is.  Nothing is
    asked of the items. *)
Theorem update_with_rendered_markup_idempotent
    head gs old_gallery ge middle ds old_data de tail items data_lines :
  marker_free gallery_start head ->
  contains gallery_start gs = true ->
  marker_free gallery_end (head ++ gs :: old_gallery) ->
  contains gallery_end ge = true ->
  marker_free data_start (head ++ gs :: ge :: middle) ->
  contains data_start ds = true ->
  marker_free data_end (head ++ gs :: ge :: middle ++ ds :: old_data) ->
  contains data_end de = true ->
  marker_free data_end data_lines ->
  let page := head ++ gs :: old_gallery ++ ge :: middle ++ ds :: old_data ++ de :: tail in
  let gallery_lines := render_gallery_markup_lines items in
  update_index_lines page gallery_lines data_lines
  = head ++ gs :: gallery_lines ++ ge :: middle ++ ds :: data_lines ++ de :: tail /\
  update_index_lines (update_index_lines page gallery_lines data_lines)
    gallery_lines data_lines
  = update_index_lines page gallery_lines data_lines.
Proof.
  intros Hgs1 Hgs2 Hge1 Hge2 Hds1 Hds2 Hde1 Hde2 Hd page gallery_lines.
  subst page.
  pose proof (rendered_markup_lines_marker_free items) as (_ & Hg2 & Hg3 & Hg4).
  fold gallery_lines in Hg2, Hg3, Hg4.
  assert (update_index_lines
            (head ++ gs :: old_gallery ++ ge :: middle ++ ds :: old_data ++ de :: tail)
            gallery_lines data_lines
          = head ++ gs :: gallery_lines ++ ge :: middle ++ ds :: data_lines ++ de :: tail)
    as Hfirst.
  { apply update_index_lines_replaces_blocks_aux; try assumption; split_marker_free. }
  split; [exact Hfirst|]. rewrite Hfirst.
  apply update_index_lines_replaces_blocks_aux; try assumption; split_marker_free.
Qed.

Lemma update_with_rendered_markup_idempotent_witness :
  let gallery_lines := render_gallery_markup_lines [] in
  update_index_lines sample_page gallery_lines ["[]"]
  = ["<main>"; "  <!-- gallery:start -->"] ++ gallery_lines ++
    ["  <!-- gallery:end -->"; "</main>"; "<!-- gallery-data:start -->"; "[]";
     "<!-- gallery-data:end -->"; "</html>"] /\
  update_index_lines (update_index_lines sample_page gallery_lines ["[]"])
    gallery_lines ["[]"]
  = update_index_lines sample_page gallery_lines ["[]"].
Proof.
  apply (update_with_rendered_markup_idempotent
           ["<main>"] "  <!-- gallery:start -->" ["  <p>old</p>"]
           "  <!-- gallery:end -->" ["</main>"]
           "<!-- gallery-data:start -->" ["[]"] "<!-- gallery-data:end -->"
           ["</html>"] [] ["[]"]);
    try (vm_compute; reflexivity);
    repeat constructor.
Defined.
